(** * rancher-dns: the answer-resolution engine of [answer.go]

    A shallow embedding of [answer.go] and the properties of its resolver:
    the depth and loop guards of [Addresses], the default-tier fallback, the
    gate in front of the upstream resolvers, [RecurseHosts], [shuffle] and
    [ReadAnswersFile].

    Conventions.
    - Go strings are [string]; Go maps are [gmap string _] (a nil map and an
      empty map answer every lookup alike); slices are lists, a nil slice
      and an empty one are both [[]].
    - [uint16] and [uint32] values are [Z].
    - What the code does to the outside (the random source behind
      [rand.Intn], the upstream resolvers behind [ResolveTryAll], the file
      system) is threaded through an explicit [World]; log statements are
      left out. *)

From stdpp Require Import gmap strings list fin_maps.
From Stdlib Require Import ZArith Lia Ascii.

(** ** The [dns] package: names and resource records *)

Module dns.

(** [dns.IsFqdn]: the name is not empty and its last byte is a dot. *)
Definition IsFqdn (s : string) : bool :=
  match String.length s with
  | O => false
  | S l => match String.get l s with
           | Some c => Ascii.eqb c "."%char
           | None => false
           end
  end.

(** [dns.Fqdn]: the identity on fully qualified names, else a dot is
    appended. *)
Definition Fqdn (s : string) : string :=
  if IsFqdn s then s else (s +:+ ".")%string.

Definition TypeA : Z := 1.
Definition TypeCNAME : Z := 5.
Definition ClassINET : Z := 1.

Record RR_Header := mkHeader {
  Name : string;
  Rrtype : Z;
  Class : Z;
  Ttl : Z
}.

(** [net.IP] is a byte slice; a nil one is [None] below. *)
Definition IP := list Byte.byte.

(** [dns.RR] is an interface; the resolver builds [*dns.A] and
    [*dns.CNAME] values, the upstream resolvers may answer with any
    record type. *)
Inductive RR :=
| A (Hdr : RR_Header) (addr : option IP)
| CNAME (Hdr : RR_Header) (Target : string)
| Other (Hdr : RR_Header) (rdata : list Byte.byte).

End dns.

Import dns.

(** ** The answers file *)

Definition DEFAULT_KEY : string := "default"%string.
Definition RECURSE_KEY : string := "recurse"%string.

Record RecordA := mkRecordA {
  a_Ttl : option Z;
  a_Answer : list string
}.

Record RecordCname := mkRecordCname {
  c_Ttl : option Z;
  c_Answer : string
}.

Record ClientAnswers := mkClientAnswers {
  Recurse : list string;
  A_ : gmap string RecordA;
  Cname : gmap string RecordCname
}.

Abbreviation Answers := (gmap string ClientAnswers).

(** ** The world outside the resolver *)

(** [rand_tape] is the sequence of raw draws of the process-wide random
    source and [rand_pos] how many were consumed; [upstream_reply k fqdn
    hosts] is what the upstream resolvers answer to the [k]-th delegation
    ([None] when [ResolveTryAll] returns an error); [upstream_calls] is the
    list of delegations made so far, oldest first. *)
Record World := mkWorld {
  rand_tape : nat -> nat;
  rand_pos : nat;
  upstream_reply : nat -> string -> list string -> option (list RR);
  upstream_calls : list (string * list string)
}.

(** A Go call returns, panics, or (in the fuel-indexed model of a recursive
    function) is cut off. *)
Inductive Outcome (T : Type) :=
| Return (v : T) (w : World)
| Panic
| OutOfFuel.
Arguments Return {T} v w.
Arguments Panic {T}.
Arguments OutOfFuel {T}.

Definition M (T : Type) := World -> Outcome T.

Definition ret {T} (v : T) : M T := fun w => Return v w.

Definition bind {T U} (m : M T) (k : T -> M U) : M U :=
  fun w => match m w with
           | Return v w' => k v w'
           | Panic => Panic
           | OutOfFuel => OutOfFuel
           end.

Definition panic {T} : M T := fun _ => Panic.

Notation "x <- m ;; k" := (bind m (fun x => k))
  (at level 100, m at next level, right associativity).

(** [rand.Intn n]: a draw in [[0, n)]; it panics when [n <= 0]. *)
Definition Intn (n : nat) : M nat :=
  fun w =>
    match n with
    | O => Panic
    | S _ => Return (rand_tape w (rand_pos w) mod n)
               (mkWorld (rand_tape w) (S (rand_pos w))
                        (upstream_reply w) (upstream_calls w))
    end.

(** ** [shuffle] *)

(** [items[i], items[j] = items[j], items[i]]: both reads come first, an
    index out of range panics. *)
Definition swap (i j : nat) (items : list RR) : option (list RR) :=
  match items !! i, items !! j with
  | Some x, Some y => Some (<[j:=x]> (<[i:=y]> items))
  | _, _ => None
  end.

(** The body of [for i := range *items], with [n] iterations left. *)
Fixpoint shuffle_loop (n i : nat) (items : list RR) : M (list RR) :=
  match n with
  | O => ret items
  | S n' =>
      j <- Intn (i + 1) ;;
      match swap i j items with
      | Some items' => shuffle_loop n' (S i) items'
      | None => panic
      end
  end.

Definition shuffle (items : list RR) : M (list RR) :=
  shuffle_loop (length items) 0 items.

(** ** The resolver *)

Definition uint32 (z : Z) : Z := z mod 2 ^ 32.

(** Modelled from the spec: [ResolveTryAll] is defined in another file of
    the repository. It takes the name and the ordered list of upstream
    addresses and returns the answer records of the first upstream that
    responds, or an error. Here the delegation is recorded in the world and
    answered by the world's [upstream_reply]. *)
Definition ResolveTryAll (fqdn : string) (hosts : list string)
  : M (option (list RR)) :=
  fun w =>
    Return (upstream_reply w (length (upstream_calls w)) fqdn hosts)
           (mkWorld (rand_tape w) (rand_pos w) (upstream_reply w)
                    (upstream_calls w ++ [(fqdn, hosts)])).

(** ** Loading the answers file *)

(** A Go [error] value, as far as [ReadAnswersFile] looks at it: whether
    [os.IsNotExist] holds of it. *)
Record error := mkError {
  IsNotExist : bool;
  message : string
}.

(** [os.IsNotExist(err)], also for a nil [err]. *)
Definition os_IsNotExist (err : option error) : bool :=
  match err with
  | Some e => IsNotExist e
  | None => false
  end.

Section Loader.

(** [ioutil.ReadFile] on the file system the process runs on, and
    [json.Unmarshal] into an [Answers] map; both return their result
    together with a possibly nil error. *)
Variable ReadFile : string -> list Byte.byte * option error.
Variable Unmarshal : list Byte.byte -> Answers -> Answers * option error.

(** The named results [(out, err)]; a nil [out] is [None]. *)
Definition ReadAnswersFile (path : string) : option Answers * option error :=
  let '(data, err) := ReadFile path in
  if os_IsNotExist err then (Some ∅, None)
  else match err with
       | Some e => (None, Some e)
       | None =>
           let out := ∅ in
           let '(out, err) := Unmarshal data out in
           (Some out, err)
       end.

End Loader.

(** ** Sample configurations *)

Module Samples.

(** An instance of [net.ParseIP] for the samples below: dotted-decimal
    IPv4 only, in the 16-byte form that [net.ParseIP] returns. *)
Definition digit (c : ascii) : option nat :=
  let n := nat_of_ascii c in
  if (48 <=? n) && (n <=? 57) then Some (n - 48) else None.

Fixpoint octet (s : string) (acc : nat) : option nat :=
  match s with
  | EmptyString => Some acc
  | String c s' =>
      match digit c with
      | Some d => if 255 <? acc * 10 + d then None else octet s' (acc * 10 + d)
      | None => None
      end
  end.

(** The fields of [s] between dots; [cur] is the field being read. *)
Fixpoint fields (s cur : string) : list string :=
  match s with
  | EmptyString => [cur]
  | String c s' =>
      if Ascii.eqb c "."%char then cur :: fields s' EmptyString
      else fields s' (cur +:+ String c EmptyString)
  end.

Definition v4InV6Prefix : list Byte.byte :=
  repeat Byte.x00 10 ++ [Byte.xff; Byte.xff].

Definition parseIPv4 (s : string) : option IP :=
  match fields s EmptyString with
  | [a; b; c; d] =>
      match a, b, c, d with
      | String _ _, String _ _, String _ _, String _ _ =>
          match octet a 0, octet b 0, octet c 0, octet d 0 with
          | Some a, Some b, Some c, Some d =>
              match Byte.of_nat a, Byte.of_nat b, Byte.of_nat c, Byte.of_nat d with
              | Some a, Some b, Some c, Some d =>
                  Some (v4InV6Prefix ++ [a; b; c; d])
              | _, _, _, _ => None
              end
          | _, _, _, _ => None
          end
      | _, _, _, _ => None
      end
  | _ => None
  end.

(** A world whose random draws are 0, 1, 2, ... and whose upstream
    resolvers never answer. *)
Definition quiet_world : World :=
  mkWorld (fun k => k) 0 (fun _ _ _ => None) [].

(** A world whose upstream resolvers answer every delegation that names
    at least one address with one A record for the name asked. *)
Definition upstream_answer (fqdn : string) : list RR :=
  [A (mkHeader fqdn TypeA ClassINET 300) (parseIPv4 "93.184.216.34")].

Definition answering_world : World :=
  mkWorld (fun k => k) 0
          (fun _ fqdn hosts =>
             match hosts with
             | [] => None
             | _ :: _ => Some (upstream_answer fqdn)
             end)
          [].

(** The CNAME entries that link each name of [ns] to the next one. *)
Fixpoint cname_links (ns : list string) : gmap string RecordCname :=
  match ns with
  | n :: ((m :: _) as ns') => <[n := mkRecordCname None m]> (cname_links ns')
  | _ => ∅
  end.

Definition hosts11 : list string :=
  ["h0."; "h1."; "h2."; "h3."; "h4."; "h5."; "h6."; "h7."; "h8."; "h9.";
   "h10."]%string.

(** Ten CNAME hops [h0.] to [h10.] for one client and nothing else. *)
Definition ten_hops (clientIp : string) : Answers :=
  {[ clientIp := mkClientAnswers [] ∅ (cname_links hosts11) ]}.

(** Nine CNAME hops [h0.] to [h9.] for one client, and two addresses for
    [h9.]. *)
Definition nine_hops (clientIp : string) : Answers :=
  {[ clientIp :=
       mkClientAnswers []
         {[ "h9."%string := mkRecordA None ["10.0.0.9"; "10.0.0.10"]%string ]}
         (cname_links (take 10 hosts11)) ]}.

(** The configuration of the README, with a CNAME that points at itself
    ([loop.], written without its dot), a CNAME next to addresses for
    the same name ([www.], whose target [web2.] is not configured), and
    an address that is no IP address ([bad.]). *)
Definition readme_like : Answers :=
  {[ "10.1.2.2"%string :=
       mkClientAnswers ["8.8.4.4:53"; "8.8.8.8"]%string
         {[ "mysql."%string := mkRecordA (Some 42%Z) ["10.1.2.3"%string];
            "web."%string :=
              mkRecordA None ["10.1.2.4"; "10.1.2.5"; "10.1.2.6"]%string;
            "www."%string := mkRecordA None ["10.1.2.7"; "10.1.2.8"]%string;
            "loop."%string := mkRecordA None ["10.1.2.9"%string];
            "bad."%string := mkRecordA None ["10.1.2.10"; "not-an-ip"]%string ]}
         {[ "www."%string := mkRecordCname (Some 42%Z) "web2."%string;
            "loop."%string := mkRecordCname None "loop"%string ]};
     "default"%string :=
       mkClientAnswers ["8.8.8.8"%string]
         {[ "foo."%string := mkRecordA None ["1.2.3.4"%string];
            "loop."%string := mkRecordA None ["1.2.3.5"%string] ]}
         {[ "website."%string := mkRecordCname None "www."%string ]} ]}.

(** The default tier of the README alone: [website.] is a CNAME for
    [www.], which has no entry, and one upstream resolver is
    configured. *)
Definition website_default : Answers :=
  {[ "default"%string :=
       mkClientAnswers ["8.8.8.8"%string]
         {[ "foo."%string := mkRecordA None ["1.2.3.4"%string] ]}
         {[ "website."%string := mkRecordCname None "www."%string ]} ]}.

(** A file system with one well-formed answers file, one file that is no
    JSON document and one path that cannot be read; a decoder that
    accepts the empty JSON object only. *)
Definition braces : list Byte.byte := [Byte.x7b; Byte.x7d].

Definition sample_ReadFile (path : string) : list Byte.byte * option error :=
  if String.eqb path "answers.json" then (braces, None)
  else if String.eqb path "broken.json" then ([Byte.x7b], None)
  else if String.eqb path "/root/secret.json"
       then ([], Some (mkError false "permission denied"))
       else ([], Some (mkError true "no such file or directory")).

Definition sample_Unmarshal (data : list Byte.byte) (out : Answers)
  : Answers * option error :=
  match data with
  | [Byte.x7b; Byte.x7d] => (out, None)
  | _ => (out, Some (mkError false "unexpected end of JSON input"))
  end.

(** A decoder that stops at a value of the wrong type: it has stored the
    entry of one client in the map by then, and returns the error. *)
Definition partial_Unmarshal (data : list Byte.byte) (out : Answers)
  : Answers * option error :=
  match data with
  | [Byte.x7b; Byte.x7d] => (out, None)
  | _ => (<["10.1.2.2"%string := mkClientAnswers [] ∅ ∅]> out,
          Some (mkError false "json: cannot unmarshal number into Go value"))
  end.

End Samples.

Section Resolver.

(** The value of the [--ttl] flag (the global [defaultTtl]) and
    [net.ParseIP], which yields a nil address for a string it cannot
    parse. *)
Variable defaultTtl : Z.
Variable ParseIP : string -> option IP.

(** The receiver of the methods. *)
Variable answers : Answers.

Definition recurseHostsFor (clientIp : string) : list string :=
  match answers !! clientIp with
  | Some client =>
      if 0 <? length (Recurse client) then Recurse client else []
  | None => []
  end.

Definition RecurseHosts (clientIp : string) : list string :=
  let hosts := [] in
  let more := recurseHostsFor clientIp in
  let hosts := if 0 <? length more then hosts ++ more else hosts in
  let more := recurseHostsFor DEFAULT_KEY in
  let hosts := if 0 <? length more then hosts ++ more else hosts in
  hosts.

(** The records that the [dns.TypeA] case of [Matching] builds, before
    they are shuffled. *)
Definition a_records (fqdn : string) (res : RecordA) : list RR :=
  let ttl := match a_Ttl res with
             | Some t => t
             | None => uint32 defaultTtl
             end in
  map (fun s => A (mkHeader fqdn TypeA ClassINET ttl) (ParseIP s))
      (a_Answer res).

(** The record that the [dns.TypeCNAME] case of [Matching] builds. *)
Definition cname_record (fqdn : string) (res : RecordCname) : RR :=
  let ttl := match c_Ttl res with
             | Some t => t
             | None => uint32 defaultTtl
             end in
  CNAME (mkHeader fqdn TypeCNAME ClassINET ttl) (c_Answer res).

Definition Matching (qtype : Z) (clientIp fqdn : string)
  : M (list RR * bool) :=
  records <-
    match answers !! clientIp with
    | Some client =>
        if (qtype =? TypeA)%Z then
          match A_ client !! fqdn with
          | Some res =>
              if 0 <? length (a_Answer res)
              then shuffle (a_records fqdn res)
              else ret []
          | None => ret []
          end
        else if (qtype =? TypeCNAME)%Z then
          match Cname client !! fqdn with
          | Some res => ret [cname_record fqdn res]
          | None => ret []
          end
        else ret []
    | None => ret []
    end ;;
  if 0 <? length records then ret (records, true) else ret ([], false).

(** [Addresses] is cut in two. [Addresses_tail] is the second half of the
    function, from the A lookup to the final [return nil, false]; the
    function reaches it when no CNAME entry matches and when the target
    of the CNAME does not resolve. [fqdn] is already normalized there.
    [self] stands for the function itself at a recursive call. *)
Definition Addresses_tail
    (self : string -> string -> list RR -> M (list RR * bool))
    (clientIp fqdn : string) (cnameParents : list RR)
  : M (list RR * bool) :=
  (* Look for an A entry *)
  r <- Matching TypeA clientIp fqdn ;;
  let '(result, ok) := r in
  if ok && (0 <? length result) then
    result <- shuffle result ;;
    ret (result, true)
  (* Try the default section of the config *)
  else if negb (String.eqb clientIp DEFAULT_KEY) then
    self DEFAULT_KEY fqdn []
  (* When resolving CNAMES, check recursive server *)
  else if 0 <? length cnameParents then
    msg <- ResolveTryAll fqdn (RecurseHosts clientIp) ;;
    match msg with
    | Some answer => ret (answer, true)
    | None => ret ([], false)
    end
  else ret ([], false).

Definition Addresses_body
    (self : string -> string -> list RR -> M (list RR * bool))
    (clientIp fqdn : string) (cnameParents : list RR)
  : M (list RR * bool) :=
  let fqdn := Fqdn fqdn in
  (* Limit recursing for non-obvious loops *)
  if 10 <=? length cnameParents then ret ([], false) else
  (* Look for a CNAME entry *)
  r <- Matching TypeCNAME clientIp fqdn ;;
  let '(result, ok) := r in
  if ok && (0 <? length result) then
    match result with
    | CNAME hdr target :: _ =>
        let cname := CNAME hdr target in
        (* Stop obvious loops *)
        if String.eqb (Fqdn target) fqdn then ret ([], false) else
        (* Recurse to find the eventual A for this CNAME *)
        r <- self clientIp (Fqdn target) (cnameParents ++ [cname]) ;;
        let '(children, ok) := r in
        if ok && (0 <? length children)
        then ret (cname :: children, true)
        else Addresses_tail self clientIp fqdn cnameParents
    | _ => panic (* result[0].( *dns.CNAME) on another record type *)
    end
  else Addresses_tail self clientIp fqdn cnameParents.

(** [Addresses] with the depth of the Go call stack bounded by [fuel]:
    every call of the function takes one unit. *)
Fixpoint AddressesFuel (fuel : nat) : string -> string -> list RR ->
                                       M (list RR * bool) :=
  match fuel with
  | O => fun _ _ _ _ => OutOfFuel
  | S fuel' => Addresses_body (AddressesFuel fuel')
  end.

(** The call stack of [Addresses] is never deeper than 21 frames
    ([depth_bound] and [AddressesFuel_enough] below). *)
Definition Addresses : string -> string -> list RR -> M (list RR * bool) :=
  AddressesFuel 21.

(** A bound on the number of nested calls below (and including) a call
    with these arguments: the ancestry chain can grow up to length 10,
    and a client other than the default one can fall back once. *)
Definition depth_bound (clientIp : string) (cnameParents : list RR) : nat :=
  (if String.eqb clientIp DEFAULT_KEY then 0 else 10)
  + S (10 - length cnameParents).

(** The entries of one tier of the store. *)
Definition cname_entry (clientIp fqdn : string) : option RecordCname :=
  match answers !! clientIp with
  | Some client => Cname client !! fqdn
  | None => None
  end.

Definition a_entry (clientIp fqdn : string) : option RecordA :=
  match answers !! clientIp with
  | Some client => A_ client !! fqdn
  | None => None
  end.

(** The addresses configured for a name in a tier (none when there is no
    entry). *)
Definition a_answers (clientIp fqdn : string) : list string :=
  match a_entry clientIp fqdn with
  | Some res => a_Answer res
  | None => []
  end.

(** ** CNAME chains in a tier *)

(** Every name of [ns] but the last has a CNAME entry in the tier of
    [clientIp] whose target normalizes to the next name. *)
Fixpoint cname_hops (clientIp : string) (ns : list string) : bool :=
  match ns with
  | n :: ((m :: _) as ns') =>
      match cname_entry clientIp n with
      | Some res => String.eqb (Fqdn (c_Answer res)) m
      | None => false
      end && cname_hops clientIp ns'
  | _ => true
  end.

(** The CNAME records of the hops of [ns], in traversal order. *)
Fixpoint chain_records (clientIp : string) (ns : list string) : list RR :=
  match ns with
  | n :: ((_ :: _) as ns') =>
      match cname_entry clientIp n with
      | Some res => cname_record n res :: chain_records clientIp ns'
      | None => []
      end
  | _ => []
  end.

(** Nothing but the CNAME hop answers for [n]: the tier of [clientIp] has
    no addresses for it and, for a client other than the default one, the
    default tier has neither a CNAME entry nor addresses. *)
Definition only_cname (clientIp n : string) : bool :=
  match a_answers clientIp n with [] => true | _ => false end
  && (String.eqb clientIp DEFAULT_KEY
      || (match cname_entry DEFAULT_KEY n with None => true | _ => false end
          && match a_answers DEFAULT_KEY n with [] => true | _ => false end)).

(** [ns] is a chain of [length ns - 1] hops between distinct normalized
    names. *)
Definition is_chain (clientIp : string) (ns : list string) : bool :=
  bool_decide (NoDup ns) && forallb IsFqdn ns && cname_hops clientIp ns.

(** A chain of [hops] hops that ends nowhere: no name on the way has
    any other data, and no upstream resolver is configured. *)
Definition dead_end_chain (hops : nat) (clientIp : string)
    (ns : list string) : bool :=
  (length ns =? S hops) && is_chain clientIp ns
  && forallb (only_cname clientIp) (take hops ns)
  && match recurseHostsFor DEFAULT_KEY with [] => true | _ => false end.

(** A chain of [hops] hops whose last name has no CNAME entry but
    addresses in the same tier. *)
Definition a_chain (hops : nat) (clientIp : string)
    (ns : list string) : bool :=
  (length ns =? S hops) && is_chain clientIp ns
  && match last ns with
     | Some n =>
         match cname_entry clientIp n with None => true | _ => false end
         && match a_answers clientIp n with [] => false | _ => true end
     | None => false
     end.

(** ** What a computation does to the world *)

(** What a computation may do to the world: draw [n] random numbers, and
  nothing else. *)
Definition draws (n : nat) (w w' : World) : Prop :=
w' = mkWorld (rand_tape w) (rand_pos w + n)
             (upstream_reply w) (upstream_calls w).

(** The resolver only moves the world forward: it consumes random draws
  and appends delegations. *)
Definition extends (w w' : World) : Prop :=
rand_tape w' = rand_tape w
/\ upstream_reply w' = upstream_reply w
/\ rand_pos w <= rand_pos w'
/\ upstream_calls w `prefix_of` upstream_calls w'.

(** [m] returns from every world (no panic, no cut-off). *)
Definition returns {T} (m : M T) : Prop :=
forall w, exists v w', m w = Return v w' /\ extends w w'.

(** [m] does not delegate to the upstream resolvers. *)
Definition quiet {T} (m : M T) : Prop :=
  forall w v w', m w = Return v w' -> upstream_calls w' = upstream_calls w.

(** ** Records and delegations *)

(** [rr.Header()]: the header of a record. *)
Definition Header (r : RR) : RR_Header :=
  match r with
  | A h _ | CNAME h _ | Other h _ => h
  end.

(** The TTL of the records of an entry: its own, or the [--ttl] flag. *)
Definition ttl_or_default (ttl : option Z) : Z :=
  match ttl with
  | Some t => t
  | None => uint32 defaultTtl
  end.

(** [m], when it returns, returns a value that satisfies [Q]. *)
Definition ensures {T} (m : M T) (Q : T -> Prop) : Prop :=
  forall w v w', m w = Return v w' -> Q v.

(** [m], when it returns, leaves a world that [R] relates to the world it
    started from. *)
Definition tracks {T} (R : World -> World -> Prop) (m : M T) : Prop :=
  forall w v w', m w = Return v w' -> R w w'.

(** From [w] to [w'] delegations were added, and each of them satisfies
    [good]. *)
Definition delegations (good : string * list string -> Prop)
    (w w' : World) : Prop :=
  exists new,
    upstream_calls w' = upstream_calls w ++ new /\ Forall good new.

(** An answer without records unless the name was found. *)
Definition nil_unless_found (r : list RR * bool) : Prop :=
  r.2 = false -> r.1 = [].

(** The answer to a query made from an empty chain: found exactly when
    there are records, and the first record is owned by [name]. *)
Definition answers_for (name : string) (r : list RR * bool) : Prop :=
  (r.2 = true <-> r.1 <> [])
  /\ forall first, head r.1 = Some first -> Name (Header first) = name.

(** What [Addresses] hands to the upstream resolvers: a normalized name,
    and the recurse list of the default tier, twice. *)
Definition default_delegation (d : string * list string) : Prop :=
  IsFqdn d.1 = true
  /\ d.2 = recurseHostsFor DEFAULT_KEY ++ recurseHostsFor DEFAULT_KEY.

(** ** The shuffle on given draws *)

(** The loop of [shuffle] on given draws: [js] are the indices drawn at the
    iterations [i], [i + 1], ... *)
Fixpoint shuffle_choices (js : list nat) (i : nat) (items : list RR)
  : option (list RR) :=
  match js with
  | [] => Some items
  | j :: js' =>
      match swap i j items with
      | Some items' => shuffle_choices js' (S i) items'
      | None => None
      end
  end.

(** The draws that [rand.Intn] can return at the iterations from [i] on. *)
Fixpoint choices_in_range (i : nat) (js : list nat) : Prop :=
  match js with
  | [] => True
  | j :: js' => j <= i /\ choices_in_range (S i) js'
  end.

(** A bound on the delegations of a call of [Addresses]: a frame of the
    default key delegates once when its chain is not empty, a frame of
    another key falls back to the default tier with an empty chain. *)
Definition delegation_bound (clientIp : string) (cnameParents : list RR)
  : nat :=
  if 10 <=? length cnameParents then 0
  else if String.eqb clientIp DEFAULT_KEY
       then Nat.min (10 - length cnameParents) 9
       else 9 * (10 - length cnameParents).

(** [m] adds at most [n] delegations. *)
Definition at_most {T} (n : nat) (m : M T) : Prop :=
  forall w v w',
    m w = Return v w' ->
    length (upstream_calls w') <= length (upstream_calls w) + n.

(** * Properties *)

(** ** Names *)

Lemma get_last_append (s : string) (c : ascii) :
String.get (String.length s) (s +:+ String c EmptyString) = Some c.
Proof. induction s as [|a s IH]; simpl; [reflexivity | exact IH]. Qed.

Lemma length_append_dot (s : string) :
String.length (s +:+ ".") = S (String.length s).
Proof. induction s as [|a s IH]; simpl; [reflexivity | by rewrite IH]. Qed.

Lemma IsFqdn_Fqdn (s : string) : IsFqdn (Fqdn s) = true.
Proof.
unfold Fqdn. destruct (IsFqdn s) eqn:E; [exact E|].
unfold IsFqdn. rewrite length_append_dot, get_last_append. reflexivity.
Qed.

Lemma Fqdn_IsFqdn (s : string) : IsFqdn s = true -> Fqdn s = s.
Proof. unfold Fqdn. by intros ->. Qed.

Lemma Fqdn_idempotent (s : string) : Fqdn (Fqdn s) = Fqdn s.
Proof. apply Fqdn_IsFqdn, IsFqdn_Fqdn. Qed.

(** ** The shuffle *)

Lemma draws_0 w : draws 0 w w.
Proof. unfold draws. destruct w; simpl. f_equal. lia. Qed.

Lemma draws_trans n m w1 w2 w3 :
draws n w1 w2 -> draws m w2 w3 -> draws (n + m) w1 w3.
Proof. unfold draws. intros -> ->. simpl. f_equal. lia. Qed.

Lemma Intn_spec (n : nat) (w : World) :
0 < n ->
exists j w', Intn n w = Return j w' /\ j < n /\ draws 1 w w'.
Proof.
intros Hn. destruct n as [|n]; [lia|].
eexists _, _. split; [reflexivity|]. split.
- apply Nat.mod_upper_bound. lia.
- unfold draws. f_equal. lia.
Qed.

Lemma swap_spec (i j : nat) (items : list RR) :
i < length items -> j < length items ->
exists items', swap i j items = Some items' /\ items' ≡ₚ items
               /\ length items' = length items.
Proof.
intros Hi Hj. unfold swap.
destruct (lookup_lt_is_Some_2 items i Hi) as [x Hx].
destruct (lookup_lt_is_Some_2 items j Hj) as [y Hy].
rewrite Hx, Hy. eexists. split; [reflexivity|]. split.
- by apply Permutation_insert_swap.
- by rewrite !length_insert.
Qed.

Lemma shuffle_loop_spec (n i : nat) (items : list RR) (w : World) :
i + n = length items ->
exists items' w',
  shuffle_loop n i items w = Return items' w'
  /\ items' ≡ₚ items /\ draws n w w'.
Proof.
revert i items w. induction n as [|n IH]; intros i items w Hlen.
- exists items, w. simpl. split; [reflexivity|]. split; [done | apply draws_0].
- simpl. unfold bind.
  destruct (Intn_spec (i + 1) w) as (j & w1 & -> & Hj & Hw1); [lia|].
  destruct (swap_spec i j items) as (items1 & -> & Hperm & Hlen1); [lia..|].
  destruct (IH (S i) items1 w1) as (items' & w' & -> & Hperm' & Hw'); [lia|].
  exists items', w'. split; [reflexivity|]. split.
  + by rewrite Hperm'.
  + exact (draws_trans 1 n _ _ _ Hw1 Hw').
Qed.

Lemma shuffle_spec (items : list RR) (w : World) :
exists items' w',
  shuffle items w = Return items' w'
  /\ items' ≡ₚ items /\ draws (length items) w w'.
Proof. apply shuffle_loop_spec. reflexivity. Qed.

(** ** Effects on the world *)

Lemma extends_refl w : extends w w.
Proof. unfold extends. repeat split; [lia | reflexivity]. Qed.

Lemma extends_trans w1 w2 w3 : extends w1 w2 -> extends w2 w3 -> extends w1 w3.
Proof.
intros (Ht & Hu & Hp & Hc) (Ht' & Hu' & Hp' & Hc'). repeat split.
- congruence.
- congruence.
- lia.
- by etrans.
Qed.

Lemma draws_extends n w w' : draws n w w' -> extends w w'.
Proof. intros ->. unfold extends; simpl. repeat split; [lia | reflexivity]. Qed.

Lemma draws_calls n w w' : draws n w w' -> upstream_calls w' = upstream_calls w.
Proof. by intros ->. Qed.

Lemma returns_ret {T} (v : T) : returns (ret v).
Proof. intros w. exists v, w. split; [reflexivity | apply extends_refl]. Qed.

Lemma returns_bind {T U} (m : M T) (k : T -> M U) :
returns m -> (forall v, returns (k v)) -> returns (bind m k).
Proof.
intros Hm Hk w. unfold bind.
destruct (Hm w) as (v & w1 & -> & Hw1).
destruct (Hk v w1) as (u & w2 & -> & Hw2).
exists u, w2. split; [reflexivity | by eapply extends_trans].
Qed.

Lemma returns_shuffle items : returns (shuffle items).
Proof.
intros w. destruct (shuffle_spec items w) as (items' & w' & -> & _ & Hd).
exists items', w'. split; [reflexivity | by eapply draws_extends].
Qed.

Lemma returns_ResolveTryAll fqdn hosts : returns (ResolveTryAll fqdn hosts).
Proof.
intros w. eexists _, _. split; [reflexivity|].
unfold extends; simpl. repeat split; [lia | by apply prefix_app_r].
Qed.

(** ** Lookups *)

Lemma Matching_CNAME (clientIp fqdn : string) (w : World) :
  Matching TypeCNAME clientIp fqdn w =
  Return match cname_entry clientIp fqdn with
         | Some res => ([cname_record fqdn res], true)
         | None => ([], false)
         end w.
Proof.
  unfold Matching, cname_entry, bind.
  destruct (answers !! clientIp) as [client|]; simpl; [|reflexivity].
  destruct (Cname client !! fqdn); reflexivity.
Qed.

Lemma length_a_records fqdn res :
  length (a_records fqdn res) = length (a_Answer res).
Proof. unfold a_records. by rewrite length_map. Qed.

Lemma Matching_A_found (clientIp fqdn : string) (res : RecordA) (w : World) :
  a_entry clientIp fqdn = Some res ->
  a_Answer res <> [] ->
  exists recs w',
    Matching TypeA clientIp fqdn w = Return (recs, true) w'
    /\ recs ≡ₚ a_records fqdn res
    /\ draws (length (a_Answer res)) w w'.
Proof.
  unfold Matching, a_entry, bind.
  destruct (answers !! clientIp) as [client|]; [|done].
  intros -> Hne. simpl.
  destruct (a_Answer res) as [|s l] eqn:Hans; [done|]. simpl.
  destruct (shuffle_spec (a_records fqdn res) w) as (recs & w' & -> & Hp & Hd).
  rewrite length_a_records, Hans in Hd.
  assert (Hlen : length recs = S (length l)).
  { by rewrite Hp, length_a_records, Hans. }
  exists recs, w'. rewrite Hlen. simpl. done.
Qed.

Lemma Matching_A_none (clientIp fqdn : string) (w : World) :
  a_answers clientIp fqdn = [] ->
  Matching TypeA clientIp fqdn w = Return ([], false) w.
Proof.
  unfold Matching, a_answers, a_entry, bind.
  destruct (answers !! clientIp) as [client|]; simpl; [|reflexivity].
  destruct (A_ client !! fqdn) as [res|]; [|reflexivity].
  intros ->. reflexivity.
Qed.

Lemma returns_Matching qtype clientIp fqdn :
  returns (Matching qtype clientIp fqdn).
Proof.
  unfold Matching. apply returns_bind.
  - repeat case_match; first [apply returns_shuffle | apply returns_ret].
  - intros records. case_match; apply returns_ret.
Qed.

(** A CNAME lookup yields nothing or one CNAME record. *)
Lemma Matching_CNAME_shape clientIp fqdn w :
  exists r, Matching TypeCNAME clientIp fqdn w = Return r w
            /\ (r = ([], false)
                \/ exists res, cname_entry clientIp fqdn = Some res
                               /\ r = ([cname_record fqdn res], true)).
Proof.
  rewrite Matching_CNAME. eexists. split; [reflexivity|].
  destruct (cname_entry clientIp fqdn) as [res|]; [right; eauto | by left].
Qed.

(** ** The recursion of [Addresses] *)

Lemma depth_bound_cname clientIp cnameParents cname :
  length cnameParents < 10 ->
  depth_bound (clientIp) (cnameParents ++ [cname])
  < depth_bound clientIp cnameParents.
Proof.
  intros H. unfold depth_bound. rewrite length_app. simpl.
  destruct (String.eqb clientIp DEFAULT_KEY); lia.
Qed.

Lemma depth_bound_default clientIp cnameParents :
  length cnameParents < 10 ->
  String.eqb clientIp DEFAULT_KEY = false ->
  depth_bound DEFAULT_KEY [] < depth_bound clientIp cnameParents.
Proof.
  intros H Hne. unfold depth_bound. rewrite Hne. simpl. lia.
Qed.

Lemma depth_bound_le_21 clientIp cnameParents :
  depth_bound clientIp cnameParents <= 21.
Proof. unfold depth_bound. destruct (String.eqb _ _); lia. Qed.

(** The two halves of [Addresses] only look at [self] where the bound
    is smaller. *)
Lemma Addresses_tail_ext self1 self2 clientIp fqdn cnameParents w :
  length cnameParents < 10 ->
  (forall c f ps w',
      depth_bound c ps < depth_bound clientIp cnameParents ->
      self1 c f ps w' = self2 c f ps w') ->
  Addresses_tail self1 clientIp fqdn cnameParents w
  = Addresses_tail self2 clientIp fqdn cnameParents w.
Proof.
  intros Hlt Hself. unfold Addresses_tail, bind.
  destruct (Matching TypeA clientIp fqdn w) as [[result ok] w1| |]; try done.
  destruct (ok && (0 <? length result)); [done|].
  destruct (String.eqb clientIp DEFAULT_KEY) eqn:Hc; simpl; [done|].
  by apply Hself, depth_bound_default.
Qed.

Lemma Addresses_body_ext self1 self2 clientIp fqdn cnameParents w :
  (forall c f ps w',
      depth_bound c ps < depth_bound clientIp cnameParents ->
      self1 c f ps w' = self2 c f ps w') ->
  Addresses_body self1 clientIp fqdn cnameParents w
  = Addresses_body self2 clientIp fqdn cnameParents w.
Proof.
  intros Hself. unfold Addresses_body.
  destruct (10 <=? length cnameParents) eqn:Hdepth; [done|].
  apply Nat.leb_gt in Hdepth. cbv beta zeta. unfold bind.
  destruct (Matching TypeCNAME clientIp (Fqdn fqdn) w)
    as [[result ok] w1| |]; try done.
  destruct (ok && (0 <? length result));
    [|by apply Addresses_tail_ext].
  destruct result as [|[| hdr target|] ?]; try done.
  destruct (String.eqb (Fqdn target) (Fqdn fqdn)); [done|].
  rewrite (Hself _ _ _ w1) by by apply depth_bound_cname.
  destruct (self2 _ _ _ w1) as [[children ok'] w2| |]; try done.
  destruct (ok' && (0 <? length children)); [done|].
  by apply Addresses_tail_ext.
Qed.

(** With enough fuel the amount of fuel does not matter. *)
Lemma AddressesFuel_enough (n m : nat) clientIp fqdn cnameParents w :
  depth_bound clientIp cnameParents <= n ->
  depth_bound clientIp cnameParents <= m ->
  AddressesFuel n clientIp fqdn cnameParents w
  = AddressesFuel m clientIp fqdn cnameParents w.
Proof.
  revert m clientIp fqdn cnameParents w.
  induction n as [|n IH]; intros m clientIp fqdn cnameParents w Hn Hm.
  - unfold depth_bound in Hn. lia.
  - destruct m as [|m]; [unfold depth_bound in Hm; lia|].
    simpl. apply Addresses_body_ext. intros c f ps w' Hlt.
    apply IH; lia.
Qed.

(** [Addresses] satisfies the equation that the Go function reads as. *)
Lemma Addresses_unfold clientIp fqdn cnameParents w :
  Addresses clientIp fqdn cnameParents w
  = Addresses_body Addresses clientIp fqdn cnameParents w.
Proof.
  unfold Addresses. change (AddressesFuel 21 clientIp fqdn cnameParents w)
    with (Addresses_body (AddressesFuel 20) clientIp fqdn cnameParents w).
  apply Addresses_body_ext. intros c f ps w' Hlt.
  pose proof (depth_bound_le_21 clientIp cnameParents).
  apply (AddressesFuel_enough 20 21); lia.
Qed.

(** Each half returns once the recursive calls it makes return. *)
Lemma Addresses_tail_returns self clientIp fqdn cnameParents :
  length cnameParents < 10 ->
  (forall c f ps,
      depth_bound c ps < depth_bound clientIp cnameParents ->
      returns (self c f ps)) ->
  returns (Addresses_tail self clientIp fqdn cnameParents).
Proof.
  intros Hlt Hself. unfold Addresses_tail.
  apply returns_bind; [apply returns_Matching|]. intros [result ok].
  destruct (ok && (0 <? length result)).
  { apply returns_bind; [apply returns_shuffle | intros; apply returns_ret]. }
  destruct (String.eqb clientIp DEFAULT_KEY) eqn:Hc; simpl.
  - destruct (0 <? length cnameParents); [|apply returns_ret].
    apply returns_bind; [apply returns_ResolveTryAll|].
    intros [answer|]; apply returns_ret.
  - by apply Hself, depth_bound_default.
Qed.

Lemma Addresses_body_returns self clientIp fqdn cnameParents :
  (forall c f ps,
      depth_bound c ps < depth_bound clientIp cnameParents ->
      returns (self c f ps)) ->
  returns (Addresses_body self clientIp fqdn cnameParents).
Proof.
  intros Hself. unfold Addresses_body.
  destruct (10 <=? length cnameParents) eqn:Hdepth; [apply returns_ret|].
  apply Nat.leb_gt in Hdepth. cbv beta zeta.
  intros w. unfold bind at 1. rewrite Matching_CNAME.
  destruct (cname_entry clientIp (Fqdn fqdn)) as [res|]; simpl.
  - destruct (String.eqb (Fqdn (c_Answer res)) (Fqdn fqdn));
      [apply returns_ret|].
    revert w. apply returns_bind.
    + by apply Hself, depth_bound_cname.
    + intros [children ok]. destruct (ok && (0 <? length children));
        [apply returns_ret | by apply Addresses_tail_returns].
  - by apply Addresses_tail_returns.
Qed.

Lemma AddressesFuel_returns (n : nat) clientIp fqdn cnameParents :
  depth_bound clientIp cnameParents <= n ->
  returns (AddressesFuel n clientIp fqdn cnameParents).
Proof.
  revert clientIp fqdn cnameParents.
  induction n as [|n IH]; intros clientIp fqdn cnameParents Hn.
  - unfold depth_bound in Hn. lia.
  - simpl. apply Addresses_body_returns. intros c f ps Hlt.
    apply IH. lia.
Qed.

Lemma Addresses_returns clientIp fqdn cnameParents :
  returns (Addresses clientIp fqdn cnameParents).
Proof. apply AddressesFuel_returns, depth_bound_le_21. Qed.

(** ** The depth guard and CNAME chains *)

Lemma Addresses_depth_guard clientIp fqdn cnameParents w :
  10 <= length cnameParents ->
  Addresses clientIp fqdn cnameParents w = Return ([], false) w.
Proof.
  intros H. rewrite Addresses_unfold. unfold Addresses_body.
  apply Nat.leb_le in H. by rewrite H.
Qed.

Lemma RecurseHosts_default :
  RecurseHosts DEFAULT_KEY
  = recurseHostsFor DEFAULT_KEY ++ recurseHostsFor DEFAULT_KEY.
Proof.
  unfold RecurseHosts. destruct (recurseHostsFor DEFAULT_KEY); reflexivity.
Qed.

(** The second half of [Addresses] at a name without data, when no
    upstream resolver is configured and the delegate fails without
    one. *)
Lemma Addresses_tail_no_data clientIp n cnameParents w :
  only_cname clientIp n = true ->
  IsFqdn n = true ->
  recurseHostsFor DEFAULT_KEY = [] ->
  (forall k f, upstream_reply w k f [] = None) ->
  exists w', Addresses_tail Addresses clientIp n cnameParents w
             = Return ([], false) w'
             /\ extends w w'.
Proof.
  intros Honly Hn Hrec Hup. unfold only_cname in Honly.
  apply andb_prop in Honly as [Ha Hdef].
  unfold Addresses_tail. unfold bind at 1.
  rewrite Matching_A_none by by destruct (a_answers clientIp n).
  simpl. destruct (String.eqb clientIp DEFAULT_KEY) eqn:Hc; simpl.
  - apply String.eqb_eq in Hc as ->.
    destruct (0 <? length cnameParents);
      [|exists w; split; [done | apply extends_refl]].
    rewrite RecurseHosts_default, Hrec. unfold bind, ResolveTryAll. simpl.
    rewrite Hup. eexists. split; [reflexivity|].
    unfold extends; simpl. repeat split; [lia | by apply prefix_app_r].
  - simpl in Hdef. apply andb_prop in Hdef as [Hdc Hda].
    exists w. split; [|apply extends_refl].
    rewrite Addresses_unfold. unfold Addresses_body.
    rewrite (Fqdn_IsFqdn n Hn). simpl. unfold bind at 1.
    rewrite Matching_CNAME.
    destruct (cname_entry DEFAULT_KEY n); [done|]. simpl.
    unfold Addresses_tail, bind.
    rewrite Matching_A_none by by destruct (a_answers DEFAULT_KEY n).
    reflexivity.
Qed.

Lemma cname_hops_cons clientIp n m rest :
  cname_hops clientIp (n :: m :: rest) = true ->
  exists res, cname_entry clientIp n = Some res
              /\ Fqdn (c_Answer res) = m
              /\ cname_hops clientIp (m :: rest) = true.
Proof.
  simpl. intros [H1 H2]%andb_prop.
  destruct (cname_entry clientIp n) as [res|]; [|done].
  apply String.eqb_eq in H1. eauto.
Qed.

(** A chain whose last name sits at depth 10 does not resolve. *)
Lemma dead_end_resolution clientIp (rest : list string) :
  forall (n : string) (cnameParents : list RR) (w : World),
    length cnameParents + length (n :: rest) = 11 ->
    NoDup (n :: rest) ->
    forallb IsFqdn (n :: rest) = true ->
    cname_hops clientIp (n :: rest) = true ->
    forallb (only_cname clientIp) (take (length rest) (n :: rest)) = true ->
    recurseHostsFor DEFAULT_KEY = [] ->
    (forall k f, upstream_reply w k f [] = None) ->
    exists w', Addresses clientIp n cnameParents w = Return ([], false) w'
               /\ extends w w'.
Proof.
  induction rest as [|m rest IH];
    intros n cnameParents w Hlen Hnd Hfq Hhops Honly Hrec Hup.
  - exists w. split; [|apply extends_refl].
    apply Addresses_depth_guard. simpl in Hlen. lia.
  - apply cname_hops_cons in Hhops as (res & Hres & Htarget & Hhops).
    simpl in Hfq. apply andb_prop in Hfq as [Hn Hfq].
    change (take (length (m :: rest)) (n :: m :: rest))
      with (n :: take (length rest) (m :: rest)) in Honly.
    simpl in Honly. apply andb_prop in Honly as [Honly_n Honly].
    apply NoDup_cons in Hnd as [Hnotin Hnd].
    assert (Hne : String.eqb m n = false).
    { apply String.eqb_neq. intros ->. apply Hnotin. left. }
    destruct (IH m (cnameParents ++ [cname_record n res]) w)
      as (w1 & Hrec1 & Hw1); try done.
    { rewrite length_app. simpl in *. lia. }
    assert (Hup1 : forall k f, upstream_reply w1 k f [] = None).
    { intros k f. destruct Hw1 as (_ & -> & _). apply Hup. }
    destruct (Addresses_tail_no_data clientIp n cnameParents w1)
      as (w2 & Htail & Hw2); try done.
    exists w2. split; [|by eapply extends_trans].
    rewrite Addresses_unfold. unfold Addresses_body.
    rewrite (Fqdn_IsFqdn n Hn).
    assert (Hdepth : (10 <=? length cnameParents) = false).
    { apply Nat.leb_gt. simpl in Hlen. lia. }
    rewrite Hdepth. unfold bind at 1. rewrite Matching_CNAME, Hres.
    simpl. rewrite Htarget, Hne. unfold bind at 1.
    unfold cname_record in Hrec1. rewrite Hrec1. simpl. exact Htail.
Qed.

(** A chain whose last name sits at depth 9 or less and has addresses
    resolves to its CNAME records followed by addresses. *)
Lemma a_chain_resolution clientIp (rest : list string) :
  forall (n l : string) (cnameParents : list RR) (w : World),
    length cnameParents + length (n :: rest) <= 10 ->
    NoDup (n :: rest) ->
    forallb IsFqdn (n :: rest) = true ->
    cname_hops clientIp (n :: rest) = true ->
    last (n :: rest) = Some l ->
    cname_entry clientIp l = None ->
    a_answers clientIp l <> [] ->
    exists addrs w',
      Addresses clientIp n cnameParents w
      = Return (chain_records clientIp (n :: rest) ++ addrs, true) w'
      /\ addrs <> [] /\ extends w w'.
Proof.
  induction rest as [|m rest IH];
    intros n l cnameParents w Hlen Hnd Hfq Hhops Hlast Hnoc Ha.
  - simpl in Hlast. injection Hlast as <-.
    simpl in Hfq. apply andb_prop in Hfq as [Hn _].
    unfold a_answers in Ha.
    destruct (a_entry clientIp n) as [res|] eqn:Hres; [|done].
    destruct (Matching_A_found clientIp n res w Hres Ha)
      as (recs & w1 & Hm & Hperm & Hd1).
    destruct (shuffle_spec recs w1) as (addrs & w2 & Hs & Hperm2 & Hd2).
    assert (Hnonempty : 0 < length recs).
    { rewrite Hperm, length_a_records. destruct (a_Answer res); [done|].
      simpl. lia. }
    exists addrs, w2. split; [|split].
    + rewrite Addresses_unfold. unfold Addresses_body.
      rewrite (Fqdn_IsFqdn n Hn).
      assert (Hdepth : (10 <=? length cnameParents) = false).
      { apply Nat.leb_gt. simpl in Hlen. lia. }
      rewrite Hdepth. unfold bind at 1. rewrite Matching_CNAME, Hnoc.
      simpl. unfold Addresses_tail. unfold bind at 1. rewrite Hm.
      apply Nat.ltb_lt in Hnonempty. rewrite Hnonempty. simpl.
      unfold bind. by rewrite Hs.
    + intros ->. apply Permutation_nil_l in Hperm2. subst recs.
      simpl in Hnonempty. lia.
    + eapply extends_trans; by eapply draws_extends.
  - apply cname_hops_cons in Hhops as (res & Hres & Htarget & Hhops).
    simpl in Hfq. apply andb_prop in Hfq as [Hn Hfq].
    apply NoDup_cons in Hnd as [Hnotin Hnd].
    assert (Hne : String.eqb m n = false).
    { apply String.eqb_neq. intros ->. apply Hnotin. left. }
    destruct (IH m l (cnameParents ++ [cname_record n res]) w)
      as (addrs & w1 & Hrec1 & Hnonempty & Hw1); try done.
    { rewrite length_app. simpl in *. lia. }
    exists addrs, w1. split; [|done].
    rewrite Addresses_unfold. unfold Addresses_body.
    rewrite (Fqdn_IsFqdn n Hn).
    assert (Hdepth : (10 <=? length cnameParents) = false).
    { apply Nat.leb_gt. simpl in Hlen. lia. }
    rewrite Hdepth. unfold bind at 1. rewrite Matching_CNAME, Hres.
    simpl. rewrite Htarget, Hne. unfold bind at 1.
    unfold cname_record in Hrec1. rewrite Hrec1.
    assert (Hpos : (0 <? length (chain_records clientIp (m :: rest) ++ addrs))
                   = true).
    { apply Nat.ltb_lt. rewrite length_app.
      destruct addrs; [done|]. simpl. lia. }
    rewrite Hpos. simpl. rewrite Hres. reflexivity.
Qed.

Lemma chain_records_length clientIp (ns : list string) :
  cname_hops clientIp ns = true ->
  length (chain_records clientIp ns) = length ns - 1.
Proof.
  induction ns as [|n [|m rest] IH]; [done..|]. intros Hhops.
  apply cname_hops_cons in Hhops as (res & Hres & _ & Hhops).
  change (chain_records clientIp (n :: m :: rest))
    with (match cname_entry clientIp n with
          | Some res => cname_record n res :: chain_records clientIp (m :: rest)
          | None => []
          end).
  rewrite Hres. specialize (IH Hhops).
  change (length (cname_record n res :: chain_records clientIp (m :: rest)))
    with (S (length (chain_records clientIp (m :: rest)))).
  rewrite IH. simpl. lia.
Qed.

(** C1. The depth guard: [Addresses] fails as soon as the ancestry chain
    holds 10 CNAME records. So a chain of 10 hops between distinct names,
    with no other data for these names and no upstream resolver, does not
    resolve, whereas a chain of 9 hops that ends at a name with addresses
    in the same tier resolves to its 9 CNAME records followed by
    addresses. *)
Theorem depth_guard_and_chains (clientIp : string) :
  (forall fqdn cnameParents w,
      10 <= length cnameParents ->
      Addresses clientIp fqdn cnameParents w = Return ([], false) w)
  /\ (forall n ns w,
         dead_end_chain 10 clientIp (n :: ns) = true ->
         (forall k f, upstream_reply w k f [] = None) ->
         exists w', Addresses clientIp n [] w = Return ([], false) w')
  /\ (forall n ns w,
         a_chain 9 clientIp (n :: ns) = true ->
         exists addrs w',
           Addresses clientIp n [] w
           = Return (chain_records clientIp (n :: ns) ++ addrs, true) w'
           /\ length (chain_records clientIp (n :: ns)) = 9
           /\ addrs <> []).
Proof.
  split; [|split].
  - intros. by apply Addresses_depth_guard.
  - intros n ns w Hchain Hup. unfold dead_end_chain, is_chain in Hchain.
    apply andb_prop in Hchain
      as [[[Hlen [[Hnd Hfq]%andb_prop Hhops]%andb_prop]%andb_prop
             Honly]%andb_prop Hrec].
    apply Nat.eqb_eq in Hlen. apply bool_decide_eq_true in Hnd.
    simpl in Hlen. injection Hlen as Hlen.
    destruct (dead_end_resolution clientIp ns n [] w) as (w' & Hr & _);
      try done.
    + simpl. lia.
    + by rewrite Hlen.
    + by destruct (recurseHostsFor DEFAULT_KEY).
    + by exists w'.
  - intros n ns w Hchain. unfold a_chain, is_chain in Hchain.
    apply andb_prop in Hchain
      as [[Hlen [[Hnd Hfq]%andb_prop Hhops]%andb_prop]%andb_prop Hlast].
    apply Nat.eqb_eq in Hlen. apply bool_decide_eq_true in Hnd.
    destruct (last (n :: ns)) as [l|] eqn:Hl; [|done].
    apply andb_prop in Hlast as [Hnoc Ha].
    destruct (a_chain_resolution clientIp ns n l [] w)
      as (addrs & w' & Hr & Hne & _); try done.
    + simpl in *. lia.
    + by destruct (cname_entry clientIp l).
    + by destruct (a_answers clientIp l).
    + exists addrs, w'. split; [done|]. split; [|done].
      rewrite chain_records_length by done. rewrite Hlen. reflexivity.
Qed.

(** ** The loop guard and the fall-through to the A lookup *)

(** C2. The exact-loop guard: when the tier of the client has a CNAME
    entry for the normalized name whose target normalizes to that same
    name, [Addresses] fails at once and leaves the world alone, whatever
    else the store holds (addresses for the name, a default tier,
    upstream resolvers) and whatever the ancestry chain is. *)
Theorem self_loop_fails clientIp fqdn cnameParents w res :
  cname_entry clientIp (Fqdn fqdn) = Some res ->
  Fqdn (c_Answer res) = Fqdn fqdn ->
  Addresses clientIp fqdn cnameParents w = Return ([], false) w.
Proof.
  intros Hres Hloop. rewrite Addresses_unfold. unfold Addresses_body.
  destruct (10 <=? length cnameParents); [done|].
  unfold bind. rewrite Matching_CNAME, Hres. simpl.
  by rewrite Hloop, String.eqb_refl.
Qed.

(** C3. When the CNAME entry of the name is no self loop and its target
    does not resolve (the recursive call fails or returns no record),
    [Addresses] goes on to the A lookup for the name under the same
    client: if addresses are configured there, they are the answer, in
    some order, with [found = true]. The records went through the two
    shuffles of [Matching] and [Addresses]. *)
Theorem cname_failure_falls_through
    clientIp fqdn cnameParents w res resA children ok w1 :
  length cnameParents < 10 ->
  cname_entry clientIp (Fqdn fqdn) = Some res ->
  Fqdn (c_Answer res) <> Fqdn fqdn ->
  Addresses clientIp (Fqdn (c_Answer res))
            (cnameParents ++ [cname_record (Fqdn fqdn) res]) w
  = Return (children, ok) w1 ->
  ok = false \/ children = [] ->
  a_entry clientIp (Fqdn fqdn) = Some resA ->
  a_Answer resA <> [] ->
  exists recs w2,
    Addresses clientIp fqdn cnameParents w = Return (recs, true) w2
    /\ recs ≡ₚ a_records (Fqdn fqdn) resA
    /\ draws (2 * length (a_Answer resA)) w1 w2.
Proof.
  intros Hlt Hres Hnoloop Hrec Hfail HresA Hne.
  destruct (Matching_A_found clientIp (Fqdn fqdn) resA w1 HresA Hne)
    as (recs1 & w' & Hm & Hperm1 & Hd1).
  destruct (shuffle_spec recs1 w') as (recs & w2 & Hs & Hperm & Hd2).
  assert (Hlen : length recs1 = length (a_Answer resA)).
  { by rewrite Hperm1, length_a_records. }
  exists recs, w2. split; [|split].
  - rewrite Addresses_unfold. unfold Addresses_body.
    apply Nat.leb_gt in Hlt. rewrite Hlt. unfold bind at 1.
    rewrite Matching_CNAME, Hres. simpl.
    apply String.eqb_neq in Hnoloop. rewrite Hnoloop.
    unfold bind at 1. unfold cname_record in Hrec. rewrite Hrec.
    assert (Hno : ok && (0 <? length children) = false).
    { destruct Hfail as [-> | ->]; [done | by rewrite andb_false_r]. }
    rewrite Hno. unfold Addresses_tail. unfold bind at 1. rewrite Hm.
    assert (Hpos : (0 <? length recs1) = true).
    { apply Nat.ltb_lt. rewrite Hlen. destruct (a_Answer resA); [done|].
      simpl. lia. }
    rewrite Hpos. simpl. unfold bind. by rewrite Hs.
  - by rewrite Hperm.
  - rewrite Hlen in Hd2. replace (2 * length (a_Answer resA))
      with (length (a_Answer resA) + length (a_Answer resA)) by lia.
    by eapply draws_trans.
Qed.

(** ** The default tier *)

Lemma Addresses_Fqdn clientIp fqdn cnameParents w :
  Addresses clientIp (Fqdn fqdn) cnameParents w
  = Addresses clientIp fqdn cnameParents w.
Proof.
  etrans; [apply Addresses_unfold|].
  symmetry. etrans; [apply Addresses_unfold|].
  unfold Addresses_body. by rewrite Fqdn_idempotent.
Qed.

Lemma cname_entry_unknown clientIp fqdn :
  answers !! clientIp = None -> cname_entry clientIp fqdn = None.
Proof. unfold cname_entry. by intros ->. Qed.

Lemma a_answers_unknown clientIp fqdn :
  answers !! clientIp = None -> a_answers clientIp fqdn = [].
Proof. unfold a_answers, a_entry. by intros ->. Qed.

(** A client without an entry, below the depth limit, is answered from
    the default tier with the ancestry chain reset. *)
Lemma Addresses_unknown_client clientIp fqdn cnameParents w :
  answers !! clientIp = None ->
  clientIp <> DEFAULT_KEY ->
  length cnameParents < 10 ->
  Addresses clientIp fqdn cnameParents w = Addresses DEFAULT_KEY fqdn [] w.
Proof.
  intros Hc Hne Hlt. rewrite <- (Addresses_Fqdn DEFAULT_KEY).
  rewrite (Addresses_unfold clientIp). unfold Addresses_body.
  apply Nat.leb_gt in Hlt. rewrite Hlt. unfold bind at 1.
  rewrite Matching_CNAME, cname_entry_unknown by done. simpl.
  unfold Addresses_tail, bind.
  rewrite Matching_A_none by by apply a_answers_unknown.
  apply String.eqb_neq in Hne. by rewrite Hne.
Qed.

(** C4. For a client key without an entry in the store, resolving a name
    from an empty ancestry chain is resolving it for ["default"] from an
    empty ancestry chain: same records, same [found], same effects. For
    a client key other than ["default"] this holds from any ancestry
    chain shorter than 10: the fallback resets the chain. *)
Theorem unknown_client_resolves_as_default clientIp fqdn w :
  answers !! clientIp = None ->
  Addresses clientIp fqdn [] w = Addresses DEFAULT_KEY fqdn [] w
  /\ (clientIp <> DEFAULT_KEY ->
      forall cnameParents,
        length cnameParents < 10 ->
        Addresses clientIp fqdn cnameParents w
        = Addresses DEFAULT_KEY fqdn [] w).
Proof.
  intros Hc. split.
  - destruct (decide (clientIp = DEFAULT_KEY)) as [->|Hne]; [done|].
    apply Addresses_unknown_client; [done..|]. simpl. lia.
  - intros Hne cnameParents Hlt. by apply Addresses_unknown_client.
Qed.

(** ** The gate in front of the upstream resolvers *)

Lemma quiet_ret {T} (v : T) : quiet (ret v).
Proof. intros w v' w' [= _ <-]. reflexivity. Qed.

Lemma quiet_bind {T U} (m : M T) (k : T -> M U) :
  quiet m -> (forall v, quiet (k v)) -> quiet (bind m k).
Proof.
  intros Hm Hk w u w'. unfold bind.
  destruct (m w) as [v w1| |] eqn:E; [|done..].
  intros Hkv. rewrite (Hk v w1 u w' Hkv). by eapply Hm.
Qed.

Lemma quiet_shuffle items : quiet (shuffle items).
Proof.
  intros w v w' H.
  destruct (shuffle_spec items w) as (items' & w1 & H1 & _ & Hd).
  rewrite H in H1. injection H1 as _ ->. by eapply draws_calls.
Qed.

Lemma quiet_Matching qtype clientIp fqdn : quiet (Matching qtype clientIp fqdn).
Proof.
  unfold Matching. apply quiet_bind.
  - repeat case_match; first [apply quiet_shuffle | apply quiet_ret].
  - intros records. case_match; apply quiet_ret.
Qed.

Lemma Addresses_tail_quiet self clientIp fqdn cnameParents :
  (clientIp <> DEFAULT_KEY -> quiet (self DEFAULT_KEY fqdn [])) ->
  clientIp <> DEFAULT_KEY \/ cnameParents = [] ->
  quiet (Addresses_tail self clientIp fqdn cnameParents).
Proof.
  intros Hself Hgate. unfold Addresses_tail.
  apply quiet_bind; [apply quiet_Matching|]. intros [result ok].
  destruct (ok && (0 <? length result)).
  { apply quiet_bind; [apply quiet_shuffle | intros; apply quiet_ret]. }
  destruct (String.eqb clientIp DEFAULT_KEY) eqn:Hc; simpl.
  - apply String.eqb_eq in Hc. destruct Hgate as [Hne | ->]; [done|].
    simpl. apply quiet_ret.
  - apply Hself. by apply String.eqb_neq.
Qed.

Lemma Addresses_body_quiet self clientIp fqdn cnameParents :
  (forall c f ps, quiet (self c f ps)) ->
  clientIp <> DEFAULT_KEY \/ cnameParents = [] ->
  quiet (Addresses_body self clientIp fqdn cnameParents).
Proof.
  intros Hself Hgate. unfold Addresses_body.
  destruct (10 <=? length cnameParents); [apply quiet_ret|].
  cbv beta zeta. apply quiet_bind; [apply quiet_Matching|].
  intros [result ok].
  destruct (ok && (0 <? length result)); [|by apply Addresses_tail_quiet].
  destruct result as [|[| hdr target|] ?]; try done.
  destruct (String.eqb (Fqdn target) (Fqdn fqdn)); [apply quiet_ret|].
  apply quiet_bind; [apply Hself|]. intros [children ok'].
  destruct (ok' && (0 <? length children)); [apply quiet_ret|].
  by apply Addresses_tail_quiet.
Qed.

Lemma Addresses_quiet_no_cname clientIp fqdn :
  cname_entry clientIp (Fqdn fqdn) = None ->
  (clientIp <> DEFAULT_KEY -> quiet (Addresses DEFAULT_KEY (Fqdn fqdn) [])) ->
  quiet (Addresses clientIp fqdn []).
Proof.
  intros Hnoc Hdef w v w'. rewrite Addresses_unfold. revert w v w'.
  unfold Addresses_body. simpl. intros w. unfold bind at 1.
  rewrite Matching_CNAME, Hnoc. simpl. revert w.
  apply Addresses_tail_quiet; [done | by right].
Qed.

(** C6. The upstream resolvers are only asked by a call of [Addresses]
    whose client key is ["default"] and whose ancestry chain is not
    empty: any other call delegates only through its recursive calls.
    So a resolution that starts from an empty chain and finds no CNAME
    entry for the name, in the tier of the client and in the default
    tier, returns without any delegation, whatever the recurse lists
    are. *)
Theorem upstream_gate (clientIp fqdn : string) :
  (forall self cnameParents,
      (forall c f ps, quiet (self c f ps)) ->
      clientIp <> DEFAULT_KEY \/ cnameParents = [] ->
      quiet (Addresses_body self clientIp fqdn cnameParents))
  /\ (cname_entry clientIp (Fqdn fqdn) = None ->
      cname_entry DEFAULT_KEY (Fqdn fqdn) = None ->
      forall w, exists r w',
        Addresses clientIp fqdn [] w = Return r w'
        /\ upstream_calls w' = upstream_calls w).
Proof.
  split.
  - intros self cnameParents. apply Addresses_body_quiet.
  - intros Hc Hd w.
    destruct (Addresses_returns clientIp fqdn [] w) as (r & w' & Hr & _).
    exists r, w'. split; [done|]. revert Hr.
    apply Addresses_quiet_no_cname; [done|]. intros _.
    apply Addresses_quiet_no_cname; [by rewrite Fqdn_idempotent | done].
Qed.

(** ** Shuffled answers *)


(** ** Termination *)

(** C9. [Addresses] returns on every input. Each recursive call is made
    at a smaller [depth_bound]: the call for the target of a CNAME has a
    longer ancestry chain, which the depth guard bounds by 10, and the
    fallback goes to the default tier, which never falls back again. So
    the call stack is never deeper than 21 frames, and every amount of
    fuel above the bound yields the same result, which is a return and
    neither a panic nor a cut-off. *)
Theorem Addresses_terminates clientIp fqdn cnameParents w :
  (exists r w',
      Addresses clientIp fqdn cnameParents w = Return r w' /\ extends w w')
  /\ (forall fuel,
         depth_bound clientIp cnameParents <= fuel ->
         AddressesFuel fuel clientIp fqdn cnameParents w
         = Addresses clientIp fqdn cnameParents w)
  /\ depth_bound clientIp cnameParents <= 21
  /\ (forall cname,
         length cnameParents < 10 ->
         depth_bound clientIp (cnameParents ++ [cname])
         < depth_bound clientIp cnameParents)
  /\ (clientIp <> DEFAULT_KEY ->
      length cnameParents < 10 ->
      depth_bound DEFAULT_KEY [] < depth_bound clientIp cnameParents).
Proof.
  split; [apply Addresses_returns|]. split; [|split; [|split]].
  - intros fuel Hfuel. unfold Addresses.
    apply AddressesFuel_enough; [done | apply depth_bound_le_21].
  - apply depth_bound_le_21.
  - intros cname Hlt. by apply depth_bound_cname.
  - intros Hne Hlt. apply depth_bound_default; [done|].
    by apply String.eqb_neq.
Qed.

(** ** Addresses that do not parse *)

(** C10. [Matching] does not validate the configured addresses: an A
    entry with a non-empty address list is found, with one record per
    configured string, and a string that [net.ParseIP] rejects yields a
    record with a nil address. *)
Theorem unparseable_address_is_answered clientIp fqdn res w :
  a_entry clientIp fqdn = Some res ->
  a_Answer res <> [] ->
  exists recs w',
    Matching TypeA clientIp fqdn w = Return (recs, true) w'
    /\ recs ≡ₚ a_records fqdn res
    /\ length recs = length (a_Answer res)
    /\ (forall s, s ∈ a_Answer res -> ParseIP s = None ->
          exists hdr, A hdr None ∈ recs /\ Name hdr = fqdn
                      /\ Rrtype hdr = TypeA).
Proof.
  intros Hres Hne.
  destruct (Matching_A_found clientIp fqdn res w Hres Hne)
    as (recs & w' & Hm & Hperm & _).
  exists recs, w'. repeat split; try done.
  - by rewrite Hperm, length_a_records.
  - intros s Hs Hparse.
    exists (mkHeader fqdn TypeA ClassINET
              (match a_Ttl res with
               | Some t => t
               | None => uint32 defaultTtl
               end)).
    split; [|done]. rewrite Hperm. unfold a_records. rewrite <- Hparse.
    apply list_elem_of_In.
    apply (in_map (fun s => A _ (ParseIP s))). by apply list_elem_of_In.
Qed.

(** ** The delegation *)

Lemma RecurseHosts_app clientIp :
  RecurseHosts clientIp
  = recurseHostsFor clientIp ++ recurseHostsFor DEFAULT_KEY.
Proof.
  unfold RecurseHosts.
  destruct (recurseHostsFor clientIp), (recurseHostsFor DEFAULT_KEY);
    simpl; by rewrite ?app_nil_r.
Qed.

(** The call of [Addresses] for a name that has no entry in the default
    tier, made for the default key below a CNAME: the name goes to the
    upstream resolvers and their reply is the result. *)
Lemma Addresses_delegates target cname cnameParents w :
  length (cname :: cnameParents) < 10 ->
  cname_entry DEFAULT_KEY (Fqdn target) = None ->
  a_answers DEFAULT_KEY (Fqdn target) = [] ->
  Addresses DEFAULT_KEY target (cname :: cnameParents) w
  = let w1 := mkWorld (rand_tape w) (rand_pos w) (upstream_reply w)
                (upstream_calls w
                 ++ [(Fqdn target, RecurseHosts DEFAULT_KEY)]) in
    match upstream_reply w (length (upstream_calls w)) (Fqdn target)
                         (RecurseHosts DEFAULT_KEY) with
    | Some answer => Return (answer, true) w1
    | None => Return ([], false) w1
    end.
Proof.
  intros Hlt Hnoc Hnoa. etrans; [apply Addresses_unfold|].
  unfold Addresses_body. apply Nat.leb_gt in Hlt. rewrite Hlt.
  unfold bind at 1. rewrite Matching_CNAME, Hnoc. simpl.
  unfold Addresses_tail, bind. rewrite Matching_A_none by done.
  rewrite String.eqb_refl. simpl. unfold ResolveTryAll.
  by destruct (upstream_reply w _ _ _).
Qed.

(** A CNAME entry of the default tier whose target has no entry there:
    the target is handed to the upstream resolvers, once, together with
    the recurse list of the default tier taken twice. *)
Lemma delegation_after_cname fqdn res w :
  cname_entry DEFAULT_KEY (Fqdn fqdn) = Some res ->
  Fqdn (c_Answer res) <> Fqdn fqdn ->
  cname_entry DEFAULT_KEY (Fqdn (c_Answer res)) = None ->
  a_answers DEFAULT_KEY (Fqdn (c_Answer res)) = [] ->
  exists r w',
    Addresses DEFAULT_KEY fqdn [] w = Return r w'
    /\ upstream_calls w'
       = upstream_calls w
         ++ [(Fqdn (c_Answer res),
              recurseHostsFor DEFAULT_KEY ++ recurseHostsFor DEFAULT_KEY)].
Proof.
  intros Hres Hnoloop Hnoc Hnoa.
  destruct (Addresses_returns DEFAULT_KEY fqdn [] w) as (r & w' & Hr & _).
  exists r, w'. split; [done|].
  pose proof (Addresses_unfold DEFAULT_KEY fqdn [] w) as Hu.
  rewrite Hu in Hr. clear Hu. unfold Addresses_body in Hr. simpl in Hr.
  unfold bind at 1 in Hr. rewrite Matching_CNAME, Hres in Hr. simpl in Hr.
  apply String.eqb_neq in Hnoloop. rewrite Hnoloop in Hr.
  unfold bind at 1 in Hr.
  rewrite Addresses_delegates in Hr;
    [|simpl; lia | by rewrite Fqdn_idempotent..].
  rewrite Fqdn_idempotent, RecurseHosts_app in Hr. cbv zeta in Hr.
  set (w1 := mkWorld _ _ _ _) in Hr.
  assert (Htail : forall r w',
             Addresses_tail Addresses DEFAULT_KEY (Fqdn fqdn) [] w1
             = Return r w' ->
             upstream_calls w' = upstream_calls w1).
  { apply Addresses_tail_quiet; [done | by right]. }
  destruct (upstream_reply w _ _ _) as [[|a answer]|]; simpl in Hr.
  - by apply Htail in Hr.
  - by injection Hr as _ <-.
  - by apply Htail in Hr.
Qed.

(** * Further properties of the resolver *)

(** ** Names with and without their final dot *)

(** X1. [Addresses] normalizes the name it is asked first: a name and its
    dot-terminated form have the same outcome, for every client, chain and
    world. *)
Theorem Addresses_normalizes_query clientIp fqdn cnameParents w :
  Addresses clientIp (Fqdn fqdn) cnameParents w
  = Addresses clientIp fqdn cnameParents w.
Proof. apply Addresses_Fqdn. Qed.

(** ** What [Matching] finds *)

(** X2. [Matching] finds nothing, and leaves the world alone, for a client
    without an entry, for a query type other than A and CNAME, for a name
    without addresses (no A entry, or one whose address list is empty) and
    for a name without a CNAME entry. *)
Theorem Matching_misses qtype clientIp fqdn w :
  (answers !! clientIp = None ->
   Matching qtype clientIp fqdn w = Return ([], false) w)
  /\ (qtype <> TypeA -> qtype <> TypeCNAME ->
      Matching qtype clientIp fqdn w = Return ([], false) w)
  /\ (a_answers clientIp fqdn = [] ->
      Matching TypeA clientIp fqdn w = Return ([], false) w)
  /\ (cname_entry clientIp fqdn = None ->
      Matching TypeCNAME clientIp fqdn w = Return ([], false) w).
Proof.
  split; [|split; [|split]].
  - intros Hc. unfold Matching, bind. by rewrite Hc.
  - intros HA HC. unfold Matching, bind.
    destruct (answers !! clientIp); [|done].
    apply Z.eqb_neq in HA, HC. by rewrite HA, HC.
  - apply Matching_A_none.
  - intros Hnoc. by rewrite Matching_CNAME, Hnoc.
Qed.

(** X3. [Matching] always returns, and it reports [ok = true] exactly when
    it returns at least one record. It never delegates; it draws one
    random number per A record that it returns and none otherwise. *)
Theorem Matching_found_iff_records qtype clientIp fqdn w :
  exists recs ok w',
    Matching qtype clientIp fqdn w = Return (recs, ok) w'
    /\ (ok = true <-> recs <> [])
    /\ draws (if (qtype =? TypeA)%Z then length recs else 0) w w'.
Proof.
  destruct (decide (qtype = TypeA)) as [->|HA].
  - simpl. destruct (a_entry clientIp fqdn) as [res|] eqn:Hres.
    + destruct (a_Answer res) as [|s l] eqn:Hans.
      * exists [], false, w. rewrite Matching_A_none.
        -- split; [done|]. split; [done | apply draws_0].
        -- unfold a_answers. by rewrite Hres.
      * destruct (Matching_A_found clientIp fqdn res w Hres)
          as (recs & w' & Hm & Hperm & Hd); [by rewrite Hans|].
        exists recs, true, w'. split; [done|].
        assert (Hlen : length recs = length (a_Answer res)).
        { by rewrite Hperm, length_a_records. }
        split; [|by rewrite Hlen].
        split; [|done]. intros _ ->. rewrite Hans in Hlen. done.
    + exists [], false, w. rewrite Matching_A_none.
      * split; [done|]. split; [done | apply draws_0].
      * unfold a_answers. by rewrite Hres.
  - apply Z.eqb_neq in HA. rewrite HA.
    destruct (decide (qtype = TypeCNAME)) as [->|HC].
    + rewrite Matching_CNAME. destruct (cname_entry clientIp fqdn).
      * eexists _, _, _. split; [reflexivity|].
        split; [done | apply draws_0].
      * eexists _, _, _. split; [reflexivity|].
        split; [done | apply draws_0].
    + exists [], false, w. split; [|split; [done | apply draws_0]].
      unfold Matching, bind. destruct (answers !! clientIp); [|done].
      apply Z.eqb_neq in HC. by rewrite HA, HC.
Qed.

(** X4. Every record that [Matching] returns for an A query comes from the
    A entry of the name: it is an A record for the name, of class INET,
    its TTL is the TTL of the entry when that is set and the [--ttl] flag
    as a [uint32] otherwise, and its address is [net.ParseIP] of one of
    the configured strings. *)
Theorem Matching_A_records clientIp fqdn w recs ok w' :
  Matching TypeA clientIp fqdn w = Return (recs, ok) w' ->
  forall r, r ∈ recs ->
    exists res s,
      a_entry clientIp fqdn = Some res
      /\ s ∈ a_Answer res
      /\ r = A (mkHeader fqdn TypeA ClassINET (ttl_or_default (a_Ttl res)))
               (ParseIP s)
      /\ (a_Ttl res = None -> 0 <= Ttl (Header r) < 2 ^ 32)%Z.
Proof.
  intros Hm r Hr.
  destruct (a_entry clientIp fqdn) as [res|] eqn:Hres.
  - destruct (a_Answer res) as [|s0 l] eqn:Hans.
    + rewrite Matching_A_none in Hm.
      * injection Hm as <- _ _. by apply elem_of_nil in Hr.
      * unfold a_answers. by rewrite Hres.
    + destruct (Matching_A_found clientIp fqdn res w Hres)
        as (recs' & w1 & Hm' & Hperm & _); [by rewrite Hans|].
      rewrite Hm in Hm'. injection Hm' as <- _ _.
      rewrite Hperm in Hr. unfold a_records in Hr.
      apply list_elem_of_In, in_map_iff in Hr as (s & <- & Hs).
      exists res, s. split; [done|]. split; [by apply list_elem_of_In|].
      split; [done|]. intros Hnone. simpl. rewrite Hnone.
      unfold uint32. apply Z.mod_pos_bound. lia.
  - rewrite Matching_A_none in Hm.
    + injection Hm as <- _ _. by apply elem_of_nil in Hr.
    + unfold a_answers. by rewrite Hres.
Qed.

(** ** The upstream addresses *)

(** X5. [RecurseHosts] is the recurse list of the client followed by the
    recurse list of the default tier; a tier that is missing contributes
    nothing, and an address is in the result exactly when one of the two
    tiers lists it. *)
Theorem RecurseHosts_lists clientIp :
  RecurseHosts clientIp
  = recurseHostsFor clientIp ++ recurseHostsFor DEFAULT_KEY
  /\ (answers !! clientIp = None ->
      RecurseHosts clientIp = recurseHostsFor DEFAULT_KEY)
  /\ (answers !! DEFAULT_KEY = None ->
      RecurseHosts clientIp = recurseHostsFor clientIp)
  /\ (forall h,
         h ∈ RecurseHosts clientIp <->
         (exists client, answers !! clientIp = Some client
                         /\ h ∈ Recurse client)
         \/ (exists client, answers !! DEFAULT_KEY = Some client
                            /\ h ∈ Recurse client)).
Proof.
  assert (Hfor : forall c h,
             h ∈ recurseHostsFor c <->
             exists client, answers !! c = Some client /\ h ∈ Recurse client).
  { intros c h. unfold recurseHostsFor.
    destruct (answers !! c) as [client|].
    - destruct (Recurse client) eqn:E; simpl.
      + split; [by intros ?%elem_of_nil|].
        intros (cl & [= <-] & Hh). by rewrite E in Hh.
      + rewrite <- E. split; [eauto|]. by intros (cl & [= <-] & Hh).
    - split; [by intros ?%elem_of_nil | by intros (? & ? & _)]. }
  split; [apply RecurseHosts_app|]. split; [|split].
  - intros Hc. rewrite RecurseHosts_app. unfold recurseHostsFor at 1.
    by rewrite Hc.
  - intros Hd. rewrite RecurseHosts_app.
    unfold recurseHostsFor at 2. by rewrite Hd, app_nil_r.
  - intros h. rewrite RecurseHosts_app, elem_of_app, !Hfor. done.
Qed.

(** ** Reasoning on every call of [Addresses] *)

Lemma ensures_ret {T} (v : T) (Q : T -> Prop) : Q v -> ensures (ret v) Q.
Proof. intros HQ w v' w' [= <- _]. exact HQ. Qed.

Lemma ensures_bind {T U} (m : M T) (k : T -> M U) (Q : U -> Prop) :
  (forall v, ensures (k v) Q) -> ensures (bind m k) Q.
Proof.
  intros Hk w u w'. unfold bind. destruct (m w) as [v w1| |]; [|done..].
  apply Hk.
Qed.

Lemma ensures_bind_with {T U} (m : M T) (k : T -> M U)
    (P : T -> Prop) (Q : U -> Prop) :
  ensures m P -> (forall v, P v -> ensures (k v) Q) -> ensures (bind m k) Q.
Proof.
  intros Hm Hk w u w'. unfold bind.
  destruct (m w) as [v w1| |] eqn:E; [|done..].
  apply Hk. by eapply Hm.
Qed.

Lemma ensures_Addresses clientIp fqdn cnameParents Q :
  ensures (Addresses_body Addresses clientIp fqdn cnameParents) Q ->
  ensures (Addresses clientIp fqdn cnameParents) Q.
Proof.
  intros H w r w' Hr. eapply H.
  etrans; [symmetry; apply Addresses_unfold | exact Hr].
Qed.

(** A property of the outcome of every call holds once one frame keeps it,
    given that the calls the frame makes have it. *)
Lemma Addresses_frame_ind
    (P : string -> string -> list RR -> World -> list RR * bool -> World
         -> Prop) :
  (forall self clientIp fqdn cnameParents,
      (forall c f ps w r w', self c f ps w = Return r w' -> P c f ps w r w') ->
      forall w r w',
        Addresses_body self clientIp fqdn cnameParents w = Return r w' ->
        P clientIp fqdn cnameParents w r w') ->
  forall clientIp fqdn cnameParents w r w',
    Addresses clientIp fqdn cnameParents w = Return r w' ->
    P clientIp fqdn cnameParents w r w'.
Proof.
  intros Hframe. unfold Addresses. generalize 21 as fuel.
  induction fuel as [|fuel IH]; intros clientIp fqdn cnameParents w r w' Hr.
  - discriminate.
  - simpl in Hr. eapply Hframe; [|exact Hr]. apply IH.
Qed.

(** ** Records and [found] *)

Lemma Addresses_tail_nil_unless_found self clientIp fqdn cnameParents :
  ensures (self DEFAULT_KEY fqdn []) nil_unless_found ->
  ensures (Addresses_tail self clientIp fqdn cnameParents) nil_unless_found.
Proof.
  intros Hself. unfold Addresses_tail. apply ensures_bind. intros [result ok].
  destruct (ok && (0 <? length result)).
  { apply ensures_bind. intros v. by apply ensures_ret. }
  destruct (negb (String.eqb clientIp DEFAULT_KEY)); [done|].
  destruct (0 <? length cnameParents); [|by apply ensures_ret].
  apply ensures_bind. intros [answer|]; by apply ensures_ret.
Qed.

(** X6. A resolution that does not find the name returns no record:
    [Addresses] never returns records together with [found = false],
    whatever the client, the name, the ancestry chain and the world. *)
Theorem not_found_is_nil clientIp fqdn cnameParents w recs w' :
  Addresses clientIp fqdn cnameParents w = Return (recs, false) w' ->
  recs = [].
Proof.
  intros Hr.
  apply (Addresses_frame_ind (fun _ _ _ _ r _ => nil_unless_found r))
    in Hr; [by apply Hr|].
  clear. intros self clientIp fqdn cnameParents Hself.
  assert (Hs : forall c f ps, ensures (self c f ps) nil_unless_found).
  { intros c f ps w r w'. apply Hself. }
  change (ensures (Addresses_body self clientIp fqdn cnameParents)
            nil_unless_found).
  unfold Addresses_body.
  destruct (10 <=? length cnameParents); [by apply ensures_ret|].
  cbv beta zeta. apply ensures_bind. intros [result ok].
  destruct (ok && (0 <? length result));
    [|by apply Addresses_tail_nil_unless_found].
  destruct result as [|[| hdr target|] ?]; try done.
  destruct (String.eqb (Fqdn target) (Fqdn fqdn)); [by apply ensures_ret|].
  apply ensures_bind. intros [children ok'].
  destruct (ok' && (0 <? length children)); [by apply ensures_ret|].
  by apply Addresses_tail_nil_unless_found.
Qed.

Lemma Matching_A_names clientIp fqdn :
  ensures (Matching TypeA clientIp fqdn)
    (fun r => (r.2 = true <-> r.1 <> [])
              /\ Forall (fun rr => Name (Header rr) = fqdn) r.1).
Proof.
  intros w [recs ok] w' Hm. simpl.
  destruct (a_answers clientIp fqdn) as [|s l] eqn:Hans.
  - rewrite Matching_A_none in Hm by done. by injection Hm as <- <- _.
  - unfold a_answers in Hans.
    destruct (a_entry clientIp fqdn) as [res|] eqn:Hres; [|done].
    destruct (Matching_A_found clientIp fqdn res w Hres)
      as (recs' & w1 & Hm' & Hperm & _); [by rewrite Hans|].
    rewrite Hm in Hm'. injection Hm' as <- -> _. split.
    + split; [|done]. intros _ ->. apply Permutation_nil_l in Hperm.
      unfold a_records in Hperm. by rewrite Hans in Hperm.
    + rewrite Hperm. unfold a_records. apply Forall_forall.
      intros x Hx. by apply list_elem_of_In, in_map_iff in Hx as (s' & <- & _).
Qed.

Lemma shuffle_names name items :
  Forall (fun rr => Name (Header rr) = name) items ->
  ensures (shuffle items)
    (fun items' => length items' = length items
                   /\ Forall (fun rr => Name (Header rr) = name) items').
Proof.
  intros Hall w items' w' Hs.
  destruct (shuffle_spec items w) as (items1 & w1 & Hs1 & Hperm & _).
  rewrite Hs in Hs1. injection Hs1 as <- _. by rewrite Hperm.
Qed.

Lemma Addresses_tail_answers_for self clientIp fqdn :
  (clientIp <> DEFAULT_KEY ->
   ensures (self DEFAULT_KEY fqdn []) (answers_for fqdn)) ->
  ensures (Addresses_tail self clientIp fqdn []) (answers_for fqdn).
Proof.
  intros Hself. unfold Addresses_tail.
  eapply ensures_bind_with; [apply Matching_A_names|].
  intros [result ok] [Hok Hnames]. simpl in Hok, Hnames.
  destruct (ok && (0 <? length result)) eqn:Hfound.
  - apply andb_prop in Hfound as [_ Hpos%Nat.ltb_lt].
    eapply ensures_bind_with; [by apply shuffle_names|].
    intros items' [Hlen Hall]. apply ensures_ret. split; simpl.
    + split; [|done]. intros _ ->. simpl in Hlen. lia.
    + intros first Hfirst. destruct items' as [|x items']; [done|].
      injection Hfirst as <-. by apply Forall_cons in Hall as [? _].
  - destruct (String.eqb clientIp DEFAULT_KEY) eqn:Hc; simpl.
    + by apply ensures_ret.
    + apply Hself. by apply String.eqb_neq.
Qed.

Lemma Addresses_body_answers_for self clientIp fqdn :
  (clientIp <> DEFAULT_KEY ->
   ensures (self DEFAULT_KEY (Fqdn fqdn) []) (answers_for (Fqdn fqdn))) ->
  ensures (Addresses_body self clientIp fqdn []) (answers_for (Fqdn fqdn)).
Proof.
  intros Hself. unfold Addresses_body. simpl.
  intros w. unfold bind at 1. rewrite Matching_CNAME.
  destruct (cname_entry clientIp (Fqdn fqdn)) as [res|]; simpl;
    [|by apply Addresses_tail_answers_for].
  destruct (String.eqb (Fqdn (c_Answer res)) (Fqdn fqdn));
    [by apply ensures_ret|].
  revert w. apply ensures_bind. intros [children ok].
  destruct (ok && (0 <? length children));
    [|by apply Addresses_tail_answers_for].
  apply ensures_ret. split; simpl; [done|]. by intros first [= <-].
Qed.

(** X7. A query made from an empty ancestry chain is found exactly when
    records are returned, and the first record of the answer is owned by
    the normalized name that was asked, be it the CNAME record of the
    name or one of its A records, and be it found in the tier of the
    client or in the default tier. *)
Theorem answer_starts_at_query_name clientIp fqdn w recs ok w' :
  Addresses clientIp fqdn [] w = Return (recs, ok) w' ->
  (ok = true <-> recs <> [])
  /\ forall first, head recs = Some first ->
                   Name (Header first) = Fqdn fqdn.
Proof.
  assert (Hdefault : forall f,
             ensures (Addresses DEFAULT_KEY f []) (answers_for (Fqdn f))).
  { intros f. apply ensures_Addresses, Addresses_body_answers_for. done. }
  intros Hr.
  apply (ensures_Addresses clientIp fqdn [] (answers_for (Fqdn fqdn))) in Hr;
    [exact Hr|].
  apply Addresses_body_answers_for. intros _.
  rewrite <- (Fqdn_idempotent fqdn) at 2. apply Hdefault.
Qed.

(** ** What is delegated *)

Lemma delegations_refl good w : delegations good w w.
Proof. exists []. by rewrite app_nil_r. Qed.

Lemma delegations_trans good w1 w2 w3 :
  delegations good w1 w2 -> delegations good w2 w3 -> delegations good w1 w3.
Proof.
  intros (n1 & H1 & G1) (n2 & H2 & G2). exists (n1 ++ n2).
  split; [by rewrite H2, H1, app_assoc | by apply Forall_app].
Qed.

Lemma tracks_ret {T} good (v : T) : tracks (delegations good) (ret v).
Proof. intros w v' w' [= _ <-]. apply delegations_refl. Qed.

Lemma tracks_bind {T U} good (m : M T) (k : T -> M U) :
  tracks (delegations good) m ->
  (forall v, tracks (delegations good) (k v)) ->
  tracks (delegations good) (bind m k).
Proof.
  intros Hm Hk w u w'. unfold bind.
  destruct (m w) as [v w1| |] eqn:E; [|done..].
  intros Hkv. eapply delegations_trans; [by eapply Hm | by eapply Hk].
Qed.

Lemma quiet_tracks {T} good (m : M T) :
  quiet m -> tracks (delegations good) m.
Proof.
  intros Hq w v w' Hm. exists []. by rewrite app_nil_r, (Hq w v w' Hm).
Qed.

Lemma ResolveTryAll_tracks good fqdn hosts :
  good (fqdn, hosts) -> tracks (delegations good) (ResolveTryAll fqdn hosts).
Proof.
  intros Hgood w v w' [= _ <-]. exists [(fqdn, hosts)]. simpl.
  split; [done | by apply Forall_singleton].
Qed.

Lemma Addresses_tail_delegations self clientIp fqdn cnameParents :
  IsFqdn fqdn = true ->
  tracks (delegations default_delegation) (self DEFAULT_KEY fqdn []) ->
  tracks (delegations default_delegation)
         (Addresses_tail self clientIp fqdn cnameParents).
Proof.
  intros Hfq Hself. unfold Addresses_tail.
  apply tracks_bind; [apply quiet_tracks, quiet_Matching|].
  intros [result ok]. destruct (ok && (0 <? length result)).
  { apply tracks_bind; [apply quiet_tracks, quiet_shuffle|].
    intros. apply tracks_ret. }
  destruct (String.eqb clientIp DEFAULT_KEY) eqn:Hc; simpl; [|done].
  apply String.eqb_eq in Hc as ->.
  destruct (0 <? length cnameParents); [|apply tracks_ret].
  apply tracks_bind.
  - apply ResolveTryAll_tracks. split; [done|]. apply RecurseHosts_default.
  - intros [answer|]; apply tracks_ret.
Qed.

(** X8. Whatever the client, each delegation that [Addresses] makes hands
    a normalized name to the upstream resolvers together with the recurse
    list of the default tier repeated twice: the recurse list of the
    querying client is never used, and the delegations made before the
    call stay as they are. *)
Theorem delegations_carry_default_list clientIp fqdn cnameParents w r w' :
  Addresses clientIp fqdn cnameParents w = Return r w' ->
  exists new,
    upstream_calls w' = upstream_calls w ++ new
    /\ Forall (fun d => IsFqdn d.1 = true
                        /\ d.2 = recurseHostsFor DEFAULT_KEY
                                 ++ recurseHostsFor DEFAULT_KEY) new.
Proof.
  intros Hr.
  apply (Addresses_frame_ind
           (fun _ _ _ w _ w' => delegations default_delegation w w')) in Hr;
    [exact Hr|].
  clear. intros self clientIp fqdn cnameParents Hself.
  assert (Hs : forall c f ps,
             tracks (delegations default_delegation) (self c f ps)).
  { intros c f ps w r w'. apply Hself. }
  change (tracks (delegations default_delegation)
            (Addresses_body self clientIp fqdn cnameParents)).
  unfold Addresses_body.
  destruct (10 <=? length cnameParents); [apply tracks_ret|].
  cbv beta zeta. apply tracks_bind; [apply quiet_tracks, quiet_Matching|].
  intros [result ok].
  destruct (ok && (0 <? length result));
    [|by apply Addresses_tail_delegations; [apply IsFqdn_Fqdn|]].
  destruct result as [|[| hdr target|] ?]; try done.
  destruct (String.eqb (Fqdn target) (Fqdn fqdn)); [apply tracks_ret|].
  apply tracks_bind; [apply Hs|]. intros [children ok'].
  destruct (ok' && (0 <? length children)); [apply tracks_ret|].
  by apply Addresses_tail_delegations; [apply IsFqdn_Fqdn|].
Qed.

(** ** CNAME chains of any depth *)

Lemma chain_resolution_order clientIp (rest : list string) :
  forall (n l : string) (res : RecordA) (cnameParents : list RR) (w : World),
    length cnameParents + length (n :: rest) <= 10 ->
    NoDup (n :: rest) ->
    forallb IsFqdn (n :: rest) = true ->
    cname_hops clientIp (n :: rest) = true ->
    last (n :: rest) = Some l ->
    cname_entry clientIp l = None ->
    a_entry clientIp l = Some res ->
    a_Answer res <> [] ->
    exists addrs w',
      Addresses clientIp n cnameParents w
      = Return (chain_records clientIp (n :: rest) ++ addrs, true) w'
      /\ addrs ≡ₚ a_records l res
      /\ draws (2 * length (a_Answer res)) w w'.
Proof.
  induction rest as [|m rest IH];
    intros n l res cnameParents w Hlen Hnd Hfq Hhops Hlast Hnoc Hres Ha.
  - simpl in Hlast. injection Hlast as <-.
    simpl in Hfq. apply andb_prop in Hfq as [Hn _].
    destruct (Matching_A_found clientIp n res w Hres Ha)
      as (recs & w1 & Hm & Hperm & Hd1).
    destruct (shuffle_spec recs w1) as (addrs & w2 & Hs & Hperm2 & Hd2).
    assert (Hrecs : length recs = length (a_Answer res)).
    { by rewrite Hperm, length_a_records. }
    exists addrs, w2. split; [|split].
    + etrans; [apply Addresses_unfold|]. unfold Addresses_body.
      rewrite (Fqdn_IsFqdn n Hn).
      assert (Hdepth : (10 <=? length cnameParents) = false).
      { apply Nat.leb_gt. simpl in Hlen. lia. }
      rewrite Hdepth. unfold bind at 1. rewrite Matching_CNAME, Hnoc.
      simpl. unfold Addresses_tail. unfold bind at 1. rewrite Hm.
      assert (Hpos : (0 <? length recs) = true).
      { apply Nat.ltb_lt. rewrite Hrecs. destruct (a_Answer res); [done|].
        simpl. lia. }
      rewrite Hpos. simpl. unfold bind. by rewrite Hs.
    + by rewrite Hperm2.
    + rewrite Hrecs in Hd2.
      replace (2 * length (a_Answer res))
        with (length (a_Answer res) + length (a_Answer res)) by lia.
      by eapply draws_trans.
  - apply cname_hops_cons in Hhops as (cres & Hcres & Htarget & Hhops).
    simpl in Hfq. apply andb_prop in Hfq as [Hn Hfq].
    apply NoDup_cons in Hnd as [Hnotin Hnd].
    assert (Hne : String.eqb m n = false).
    { apply String.eqb_neq. intros ->. apply Hnotin. left. }
    destruct (IH m l res (cnameParents ++ [cname_record n cres]) w)
      as (addrs & w1 & Hrec1 & Hperm & Hd); try done.
    { rewrite length_app. simpl in *. lia. }
    exists addrs, w1. split; [|done].
    etrans; [apply Addresses_unfold|]. unfold Addresses_body.
    rewrite (Fqdn_IsFqdn n Hn).
    assert (Hdepth : (10 <=? length cnameParents) = false).
    { apply Nat.leb_gt. simpl in Hlen. lia. }
    rewrite Hdepth. unfold bind at 1. rewrite Matching_CNAME, Hcres.
    simpl. rewrite Htarget, Hne. unfold bind at 1.
    unfold cname_record in Hrec1. rewrite Hrec1.
    assert (Hpos : (0 <? length (chain_records clientIp (m :: rest) ++ addrs))
                   = true).
    { apply Nat.ltb_lt. rewrite length_app, Hperm, length_a_records.
      destruct (a_Answer res); [done|]. simpl. lia. }
    rewrite Hpos. simpl. rewrite Hcres. reflexivity.
Qed.

(** X9. A chain of at most 9 CNAME hops between distinct names of one
    tier, whose last name has addresses in that tier and no CNAME entry,
    resolves to the CNAME records of the hops in traversal order followed
    by the A records of the last name in some order. Nothing is delegated,
    and two random numbers are drawn per address. *)
Theorem cname_chain_in_traversal_order hops clientIp n ns l res w :
  hops <= 9 ->
  a_chain hops clientIp (n :: ns) = true ->
  last (n :: ns) = Some l ->
  a_entry clientIp l = Some res ->
  exists addrs w',
    Addresses clientIp n [] w
    = Return (chain_records clientIp (n :: ns) ++ addrs, true) w'
    /\ length (chain_records clientIp (n :: ns)) = hops
    /\ addrs ≡ₚ a_records l res
    /\ draws (2 * length (a_Answer res)) w w'.
Proof.
  intros Hhops9 Hchain Hl Hres. unfold a_chain, is_chain in Hchain.
  apply andb_prop in Hchain
    as [[Hlen [[Hnd Hfq]%andb_prop Hhops]%andb_prop]%andb_prop Hlast].
  apply Nat.eqb_eq in Hlen. apply bool_decide_eq_true in Hnd.
  rewrite Hl in Hlast. apply andb_prop in Hlast as [Hnoc Ha].
  unfold a_answers in Ha. rewrite Hres in Ha.
  destruct (chain_resolution_order clientIp ns n l res [] w)
    as (addrs & w' & Hr & Hperm & Hd); try done.
  - simpl in *. lia.
  - by destruct (cname_entry clientIp l).
  - by destruct (a_Answer res).
  - exists addrs, w'. split; [done|]. split; [|done].
    rewrite chain_records_length by done. rewrite Hlen. simpl. lia.
Qed.

(** ** The orders that [shuffle] can produce *)

Lemma shuffle_loop_choices (js : list nat) :
  forall i items out w,
    choices_in_range i js ->
    (forall k j, js !! k = Some j -> rand_tape w (rand_pos w + k) = j) ->
    shuffle_choices js i items = Some out ->
    exists w', shuffle_loop (length js) i items w = Return out w'
               /\ draws (length js) w w'.
Proof.
  induction js as [|j js IH]; intros i items out w Hrange Htape Hout.
  - injection Hout as <-. exists w. split; [done | apply draws_0].
  - destruct Hrange as [Hj Hrange]. simpl in Hout.
    destruct (swap i j items) as [items'|] eqn:Hswap; [|done].
    simpl. unfold bind, Intn. replace (i + 1) with (S i) by lia.
    rewrite <- (Nat.add_0_r (rand_pos w)), (Htape 0 j) by done.
    rewrite Nat.mod_small by lia. rewrite Hswap.
    set (w1 := mkWorld _ _ _ _).
    destruct (IH (S i) items' out w1 Hrange) as (w' & Hloop & Hd); [|done|].
    { intros k j' Hk. simpl. rewrite <- (Htape (S k) j' Hk). f_equal. lia. }
    exists w'. split; [done|].
    apply (draws_trans 1 (length js) w w1 w'); [|done].
    unfold draws, w1. f_equal; lia.
Qed.

Lemma swap_app_l i j l t :
  i < length l -> j < length l ->
  swap i j (l ++ t) = (fun o => o ++ t) <$> swap i j l.
Proof.
  intros Hi Hj. unfold swap. rewrite !lookup_app_l by done.
  destruct (l !! i) as [x|]; [|done]. destruct (l !! j) as [y|]; [|done].
  simpl. f_equal. rewrite insert_app_l by done.
  rewrite insert_app_l by by rewrite length_insert. done.
Qed.

Lemma swap_length i j l l' : swap i j l = Some l' -> length l' = length l.
Proof.
  unfold swap. destruct (l !! i); [|done]. destruct (l !! j); [|done].
  intros [= <-]. by rewrite !length_insert.
Qed.

Lemma shuffle_choices_app_l (js : list nat) :
  forall i l t,
    choices_in_range i js -> i + length js <= length l ->
    shuffle_choices js i (l ++ t) = (fun o => o ++ t) <$> shuffle_choices js i l.
Proof.
  induction js as [|j js IH]; intros i l t Hrange Hlen; [done|].
  destruct Hrange as [Hj Hrange]. simpl in *.
  rewrite swap_app_l by lia.
  destruct (swap i j l) as [l'|] eqn:Hswap; [|done]. simpl.
  apply IH; [done|]. rewrite (swap_length _ _ _ _ Hswap). lia.
Qed.

Lemma shuffle_choices_snoc (js : list nat) :
  forall i j items,
    shuffle_choices (js ++ [j]) i items
    = items' ← shuffle_choices js i items; swap (i + length js) j items'.
Proof.
  induction js as [|j' js IH]; intros i j items; simpl.
  - rewrite Nat.add_0_r. by destruct (swap i j items).
  - destruct (swap i j' items) as [items'|]; [|done].
    rewrite IH. by replace (S i + length js) with (i + S (length js)) by lia.
Qed.

Lemma choices_in_range_snoc js : forall i j,
  choices_in_range i js -> j <= i + length js -> choices_in_range i (js ++ [j]).
Proof.
  induction js as [|j' js IH]; intros i j Hr Hj; simpl in *.
  - split; [lia | done].
  - destruct Hr as [? Hr]. split; [done|]. apply IH; [done | lia].
Qed.

Lemma every_order_has_choices (items : list RR) :
  forall target, target ≡ₚ items ->
    exists js, length js = length items
               /\ choices_in_range 0 js
               /\ shuffle_choices js 0 items = Some target.
Proof.
  induction items as [|x l IH] using rev_ind; intros target Hperm.
  - apply Permutation_nil_r in Hperm as ->. by exists [].
  - assert (Hx : x ∈ target) by (rewrite Hperm; set_solver).
    destruct target as [|y t'] using rev_ind.
    { by apply elem_of_nil in Hx. }
    clear IHt'.
    assert (Hlen : length t' = length l).
    { apply Permutation_length in Hperm. rewrite !length_app in Hperm.
      simpl in Hperm. lia. }
    apply elem_of_app in Hx as [Hx | Hx].
    + (* x sits at index [length a] of the target *)
      apply list_elem_of_split in Hx as (a & b & ->).
      assert (Hl : a ++ y :: b ≡ₚ l).
      { apply (Permutation_cons_inv (a := x)).
        transitivity (l ++ [x]); [|symmetry; apply Permutation_cons_append].
        rewrite <- Hperm, <- (Permutation_cons_append (a ++ x :: b) y).
        rewrite <- !Permutation_middle. apply Permutation_swap. }
      destruct (IH _ Hl) as (js & Hjs & Hrange & Hchoices).
      rewrite length_app in Hlen. simpl in Hlen.
      exists (js ++ [length a]). split; [|split].
      * rewrite !length_app. simpl. lia.
      * apply choices_in_range_snoc; [done | lia].
      * rewrite shuffle_choices_snoc, shuffle_choices_app_l by (done || lia).
        rewrite Hchoices. simpl. unfold swap.
        rewrite lookup_app_r by (rewrite Hjs, length_app; simpl; lia).
        replace (length js - length (a ++ y :: b)) with 0
          by (rewrite Hjs, length_app; simpl; lia).
        simpl. rewrite <- app_assoc. simpl.
        rewrite list_lookup_middle by done. f_equal.
        replace (length js) with (length a + S (length b)) by lia.
        rewrite insert_app_r. simpl.
        rewrite <- (Nat.add_0_r (length b)) at 1. rewrite insert_app_r. simpl.
        rewrite <- (Nat.add_0_r (length a)) at 1. rewrite insert_app_r. simpl.
        by rewrite <- app_assoc.
    + apply list_elem_of_singleton in Hx as <-.
      assert (Hl : t' ≡ₚ l).
      { apply (Permutation_cons_inv (a := x)).
        transitivity (t' ++ [x]); [apply Permutation_cons_append|].
        transitivity (l ++ [x]); [done|].
        symmetry. apply Permutation_cons_append. }
      destruct (IH _ Hl) as (js & Hjs & Hrange & Hchoices).
      exists (js ++ [length l]). split; [|split].
      * by rewrite !length_app, Hjs.
      * apply choices_in_range_snoc; [done | lia].
      * rewrite shuffle_choices_snoc, shuffle_choices_app_l by (done || lia).
        rewrite Hchoices. simpl. unfold swap. rewrite Hjs, <- Hlen.
        rewrite list_lookup_middle by done. f_equal.
        rewrite insert_app_r_alt by done. rewrite Nat.sub_diag. simpl.
        rewrite insert_app_r_alt by done. rewrite Nat.sub_diag. done.
Qed.

(** X10. [shuffle] can produce every order of its input: for each
    permutation of the items there are random draws on which [shuffle]
    returns that permutation. *)
Theorem shuffle_reaches_every_order (items target : list RR) :
  target ≡ₚ items ->
  exists tape, forall w,
    rand_tape w = tape -> rand_pos w = 0 ->
    exists w', shuffle items w = Return target w'
               /\ draws (length items) w w'.
Proof.
  intros Hperm.
  destruct (every_order_has_choices items target Hperm)
    as (js & Hlen & Hrange & Hchoices).
  exists (fun k => nth k js 0). intros w Htape Hpos.
  unfold shuffle. rewrite <- Hlen.
  apply shuffle_loop_choices; [done| |done].
  intros k j Hk. rewrite Htape, Hpos. simpl.
  by rewrite nth_lookup, Hk.
Qed.

(** X11. On a list of at most one record [shuffle] returns the list as it
    is; it draws nothing for the empty list and one number for a single
    record. *)
Theorem shuffle_short_list (items : list RR) (w : World) :
  length items <= 1 ->
  exists w', shuffle items w = Return items w'
             /\ draws (length items) w w'.
Proof.
  intros Hlen.
  destruct (shuffle_spec items w) as (items' & w' & Hs & Hperm & Hd).
  exists w'. split; [|done]. rewrite Hs. f_equal.
  destruct items as [|x [|y items]]; simpl in Hlen; [| |lia].
  - by apply Permutation_nil_r in Hperm.
  - by apply Permutation_singleton_r in Hperm.
Qed.

(** ** How often [Addresses] delegates *)

Lemma at_most_ret {T} (v : T) : at_most 0 (ret v).
Proof. intros w v' w' [= _ <-]. lia. Qed.

Lemma at_most_bind {T U} (a b : nat) (m : M T) (k : T -> M U) :
  at_most a m -> (forall v, at_most b (k v)) -> at_most (a + b) (bind m k).
Proof.
  intros Hm Hk w u w'. unfold bind.
  destruct (m w) as [v w1| |] eqn:E; [|done..].
  intros Hkv. apply Hm in E. apply Hk in Hkv. lia.
Qed.

Lemma at_most_weaken {T} (a b : nat) (m : M T) :
  a <= b -> at_most a m -> at_most b m.
Proof. intros Hab Hm w v w' H. apply Hm in H. lia. Qed.

Lemma quiet_at_most {T} (m : M T) : quiet m -> at_most 0 m.
Proof. intros Hq w v w' H. rewrite (Hq w v w' H). lia. Qed.

Lemma at_most_ResolveTryAll fqdn hosts : at_most 1 (ResolveTryAll fqdn hosts).
Proof. intros w v w' [= _ <-]. simpl. rewrite length_app. simpl. lia. Qed.

Lemma Addresses_tail_at_most self clientIp fqdn cnameParents :
  at_most 9 (self DEFAULT_KEY fqdn []) ->
  at_most (if String.eqb clientIp DEFAULT_KEY
           then (if 0 <? length cnameParents then 1 else 0)
           else 9)
          (Addresses_tail self clientIp fqdn cnameParents).
Proof.
  intros Hself. unfold Addresses_tail.
  apply (at_most_bind 0); [apply quiet_at_most, quiet_Matching|].
  intros [result ok]. destruct (ok && (0 <? length result)).
  { eapply at_most_weaken; [apply Nat.le_0_l|].
    apply (at_most_bind 0 0); [apply quiet_at_most, quiet_shuffle|].
    intros. apply at_most_ret. }
  destruct (String.eqb clientIp DEFAULT_KEY); simpl; [|done].
  destruct (0 <? length cnameParents); [|apply at_most_ret].
  apply (at_most_bind 1 0); [apply at_most_ResolveTryAll|].
  intros [answer|]; apply at_most_ret.
Qed.

(** X12. One call of [Addresses] delegates to the upstream resolvers at
    most 9 times for the default key and at most 90 times for any other
    key; [delegation_bound] is the bound for a given ancestry chain. *)
Theorem delegations_are_bounded clientIp fqdn cnameParents w r w' :
  Addresses clientIp fqdn cnameParents w = Return r w' ->
  length (upstream_calls w')
  <= length (upstream_calls w) + delegation_bound clientIp cnameParents
  /\ delegation_bound DEFAULT_KEY cnameParents <= 9
  /\ delegation_bound clientIp cnameParents <= 90.
Proof.
  intros Hr. split; [|split].
  - apply (Addresses_frame_ind
             (fun c _ ps w _ w' =>
                length (upstream_calls w')
                <= length (upstream_calls w) + delegation_bound c ps)) in Hr;
      [exact Hr|].
    clear. intros self clientIp fqdn cnameParents Hself.
    assert (Hs : forall c f ps, at_most (delegation_bound c ps) (self c f ps)).
    { intros c f ps w r w'. apply Hself. }
    change (at_most (delegation_bound clientIp cnameParents)
              (Addresses_body self clientIp fqdn cnameParents)).
    unfold Addresses_body, delegation_bound at 1.
    destruct (10 <=? length cnameParents) eqn:Hdepth; [apply at_most_ret|].
    apply Nat.leb_gt in Hdepth. cbv beta zeta.
    set (tail_bound := if String.eqb clientIp DEFAULT_KEY
                       then (if 0 <? length cnameParents then 1 else 0)
                       else 9).
    assert (Htail : forall f,
               at_most tail_bound
                       (Addresses_tail self clientIp f cnameParents)).
    { intros f. apply Addresses_tail_at_most. apply (Hs DEFAULT_KEY f []). }
    assert (Hsum : delegation_bound clientIp (cnameParents ++ [A (mkHeader "" 0 0 0) None])
                   + tail_bound
                   <= (if String.eqb clientIp DEFAULT_KEY
                       then Nat.min (10 - length cnameParents) 9
                       else 9 * (10 - length cnameParents))).
    { unfold delegation_bound, tail_bound. rewrite length_app.
      change (length [A (mkHeader "" 0 0 0) None]) with 1.
      destruct (String.eqb clientIp DEFAULT_KEY);
        destruct (Nat.leb_spec 10 (length cnameParents + 1));
        destruct (Nat.ltb_spec 0 (length cnameParents)); lia. }
    assert (Hbound : forall cname,
               delegation_bound clientIp (cnameParents ++ [cname])
               = delegation_bound clientIp
                   (cnameParents ++ [A (mkHeader "" 0 0 0) None])).
    { intros cname. unfold delegation_bound. by rewrite !length_app. }
    eapply at_most_weaken; [exact Hsum|]. clear Hsum.
    set (below := delegation_bound clientIp
                    (cnameParents ++ [A (mkHeader "" 0 0 0) None])) in *.
    apply (at_most_bind 0 (below + tail_bound));
      [apply quiet_at_most, quiet_Matching|].
    intros [result ok].
    destruct (ok && (0 <? length result));
      [|eapply at_most_weaken; [|apply Htail]; lia].
    destruct result as [|[| hdr target|] ?]; try done.
    destruct (String.eqb (Fqdn target) (Fqdn fqdn)).
    { eapply at_most_weaken; [|apply at_most_ret]. lia. }
    apply at_most_bind.
    { rewrite <- (Hbound (CNAME hdr target)). apply Hs. }
    intros [children ok']. destruct (ok' && (0 <? length children)).
    + eapply at_most_weaken; [|apply at_most_ret]. lia.
    + apply Htail.
  - unfold delegation_bound. rewrite String.eqb_refl.
    destruct (10 <=? length cnameParents); lia.
  - unfold delegation_bound.
    destruct (10 <=? length cnameParents),
      (String.eqb clientIp DEFAULT_KEY); lia.
Qed.

(** X13. The upstream resolvers only serve the CNAME entries of the
    default tier: when the default tier has no CNAME entry, a resolution
    made for a client other than the default one, or from an empty
    ancestry chain, never delegates, even if a CNAME entry of the client
    points at a name that is configured nowhere and recurse lists are
    configured. *)
Theorem no_default_cname_no_delegation clientIp fqdn cnameParents w r w' :
  (forall name, cname_entry DEFAULT_KEY name = None) ->
  clientIp <> DEFAULT_KEY \/ cnameParents = [] ->
  Addresses clientIp fqdn cnameParents w = Return r w' ->
  upstream_calls w' = upstream_calls w.
Proof.
  intros Hnoc Hgate Hr.
  refine (Addresses_frame_ind
            (fun c _ ps w _ w' =>
               c <> DEFAULT_KEY \/ ps = [] ->
               upstream_calls w' = upstream_calls w) _ _ _ _ _ _ _ Hr Hgate).
  clear - Hnoc. intros self clientIp fqdn cnameParents Hself w r w' Hr Hgate.
  assert (Hs : forall c f ps,
             c <> DEFAULT_KEY \/ ps = [] -> quiet (self c f ps)).
  { intros c f ps Hg w0 r0 w0' H0. by eapply Hself. }
  revert w r w' Hr.
  change (quiet (Addresses_body self clientIp fqdn cnameParents)).
  assert (Htail : quiet (Addresses_tail self clientIp (Fqdn fqdn)
                           cnameParents)).
  { apply Addresses_tail_quiet; [|done]. intros _. apply Hs. by right. }
  unfold Addresses_body.
  destruct (10 <=? length cnameParents); [apply quiet_ret|].
  cbv beta zeta. intros w. unfold bind at 1. rewrite Matching_CNAME.
  destruct (cname_entry clientIp (Fqdn fqdn)) as [res|] eqn:Hres; simpl;
    [|apply Htail].
  assert (Hne : clientIp <> DEFAULT_KEY).
  { intros ->. by rewrite Hnoc in Hres. }
  destruct (String.eqb (Fqdn (c_Answer res)) (Fqdn fqdn));
    [apply quiet_ret|].
  revert w. apply quiet_bind; [apply Hs; by left|].
  intros [children ok]. destruct (ok && (0 <? length children));
    [apply quiet_ret | apply Htail].
Qed.

End Resolver.

(** * The theorems at sample configurations *)

Import Samples.

Lemma depth_guard_and_chains_witness :
  Addresses 600 parseIPv4 (ten_hops "10.1.2.2") "10.1.2.2" "h10."
            (repeat (CNAME (mkHeader "h." TypeCNAME ClassINET 600) "h10.") 10)
            quiet_world
  = Return ([], false) quiet_world
  /\ (exists w', Addresses 600 parseIPv4 (ten_hops "default") "default"
                           "h0." [] quiet_world
                 = Return ([], false) w')
  /\ (exists addrs w',
         Addresses 600 parseIPv4 (nine_hops "10.1.2.2") "10.1.2.2"
                   "h0." [] quiet_world
         = Return (chain_records 600 (nine_hops "10.1.2.2") "10.1.2.2"
                                 (take 10 hosts11) ++ addrs, true) w'
         /\ length (chain_records 600 (nine_hops "10.1.2.2") "10.1.2.2"
                                  (take 10 hosts11)) = 9
         /\ addrs <> []).
Proof.
  split; [|split].
  - apply (depth_guard_and_chains 600 parseIPv4 (ten_hops "10.1.2.2")).
    simpl. lia.
  - apply (proj1 (proj2 (depth_guard_and_chains 600 parseIPv4
                           (ten_hops "default") "default"))
             "h0."%string (tail hosts11) quiet_world).
    + vm_compute. reflexivity.
    + intros k f. reflexivity.
  - apply (proj2 (proj2 (depth_guard_and_chains 600 parseIPv4
                           (nine_hops "10.1.2.2") "10.1.2.2"))
             "h0."%string (tail (take 10 hosts11)) quiet_world).
    vm_compute. reflexivity.
Defined.

Lemma self_loop_fails_witness :
  Addresses 600 parseIPv4 readme_like "10.1.2.2" "loop" [] answering_world
  = Return ([], false) answering_world.
Proof.
  apply (self_loop_fails 600 parseIPv4 readme_like "10.1.2.2" "loop" []
           answering_world (mkRecordCname None "loop")).
  - vm_compute. reflexivity.
  - vm_compute. reflexivity.
Defined.

Lemma cname_failure_falls_through_witness :
  exists recs w2,
    Addresses 600 parseIPv4 readme_like "10.1.2.2" "www." [] answering_world
    = Return (recs, true) w2
    /\ recs ≡ₚ a_records 600 parseIPv4 "www."
                 (mkRecordA None ["10.1.2.7"; "10.1.2.8"]%string)
    /\ draws 4 answering_world w2.
Proof.
  apply (cname_failure_falls_through 600 parseIPv4 readme_like
           "10.1.2.2" "www." [] answering_world
           (mkRecordCname (Some 42%Z) "web2.")
           (mkRecordA None ["10.1.2.7"; "10.1.2.8"]%string)
           [] false answering_world).
  - simpl. lia.
  - vm_compute. reflexivity.
  - vm_compute. discriminate.
  - vm_compute. reflexivity.
  - left. reflexivity.
  - vm_compute. reflexivity.
  - discriminate.
Defined.

Lemma unknown_client_resolves_as_default_witness :
  Addresses 600 parseIPv4 readme_like "9.9.9.9" "foo" [] answering_world
  = Addresses 600 parseIPv4 readme_like DEFAULT_KEY "foo" [] answering_world
  /\ ("9.9.9.9"%string <> DEFAULT_KEY ->
      forall cnameParents,
        length cnameParents < 10 ->
        Addresses 600 parseIPv4 readme_like "9.9.9.9" "foo" cnameParents
                  answering_world
        = Addresses 600 parseIPv4 readme_like DEFAULT_KEY "foo" []
                    answering_world).
Proof.
  apply (unknown_client_resolves_as_default 600 parseIPv4 readme_like
           "9.9.9.9" "foo" answering_world).
  vm_compute. reflexivity.
Defined.

Lemma upstream_gate_witness :
  quiet (Addresses_body 600 parseIPv4 readme_like
           (fun _ _ _ => ret ([], false)) "9.9.9.9" "foo"
           [CNAME (mkHeader "bar." TypeCNAME ClassINET 600) "foo."])
  /\ (forall w, exists r w',
         Addresses 600 parseIPv4 readme_like "9.9.9.9" "foo" [] w
         = Return r w'
         /\ upstream_calls w' = upstream_calls w).
Proof.
  destruct (upstream_gate 600 parseIPv4 readme_like "9.9.9.9" "foo")
    as [Hframe Hrun].
  split.
  - apply Hframe.
    + intros c f ps. apply quiet_ret.
    + left. discriminate.
  - apply Hrun; vm_compute; reflexivity.
Defined.


Lemma Addresses_terminates_witness :
  (exists r w',
      Addresses 600 parseIPv4 readme_like "10.1.2.2" "www." [] answering_world
      = Return r w' /\ extends answering_world w')
  /\ AddressesFuel 600 parseIPv4 readme_like 30 "10.1.2.2" "www." []
                   answering_world
     = Addresses 600 parseIPv4 readme_like "10.1.2.2" "www." [] answering_world
  /\ depth_bound "10.1.2.2" [] <= 21
  /\ depth_bound "10.1.2.2" [CNAME (mkHeader "www." TypeCNAME ClassINET 42) "web2."]
     < depth_bound "10.1.2.2" []
  /\ depth_bound DEFAULT_KEY [] < depth_bound "10.1.2.2" [].
Proof.
  destruct (Addresses_terminates 600 parseIPv4 readme_like
              "10.1.2.2" "www." [] answering_world)
    as (Hret & Hfuel & Hbound & Hcname & Hdefault).
  split; [exact Hret|]. split; [|split; [exact Hbound|split]].
  - apply Hfuel. vm_compute. lia.
  - apply Hcname. simpl. lia.
  - apply Hdefault; [discriminate | simpl; lia].
Defined.

Lemma unparseable_address_is_answered_witness :
  exists recs w',
    Matching 600 parseIPv4 readme_like TypeA "10.1.2.2" "bad." answering_world
    = Return (recs, true) w'
    /\ length recs = 2
    /\ exists hdr, A hdr None ∈ recs /\ Name hdr = "bad."%string.
Proof.
  destruct (unparseable_address_is_answered 600 parseIPv4 readme_like
              "10.1.2.2" "bad."
              (mkRecordA None ["10.1.2.10"; "not-an-ip"]%string)
              answering_world)
    as (recs & w' & Hm & _ & Hlen & Hnil).
  - vm_compute. reflexivity.
  - discriminate.
  - exists recs, w'. split; [exact Hm|]. split; [exact Hlen|].
    destruct (Hnil "not-an-ip"%string) as (hdr & Hin & Hname & _).
    + right. left.
    + vm_compute. reflexivity.
    + exists hdr. split; [exact Hin | exact Hname].
Defined.

(** * The delegation for [website.] *)

(** C5. With the default tier of the README ([website.] a CNAME for
    [www.], no entry for [www.], recurse list [["8.8.8.8"]]), resolving
    [website.] for the default key or for a client without an entry hands
    [www.] to the upstream resolvers once, and the list of addresses that
    goes with it is [["8.8.8.8"; "8.8.8.8"]]: at the call site the client
    key is always ["default"], so [RecurseHosts] appends the recurse list
    of the default tier to itself. *)
Theorem website_delegation_lists_hosts_twice defaultTtl ParseIP w :
  RecurseHosts website_default DEFAULT_KEY = ["8.8.8.8"; "8.8.8.8"]%string
  /\ (exists r w',
         Addresses defaultTtl ParseIP website_default DEFAULT_KEY
                   "website." [] w = Return r w'
         /\ upstream_calls w'
            = upstream_calls w
              ++ [("www."%string, ["8.8.8.8"; "8.8.8.8"]%string)])
  /\ (exists r w',
         Addresses defaultTtl ParseIP website_default "9.9.9.9"
                   "website." [] w = Return r w'
         /\ upstream_calls w'
            = upstream_calls w
              ++ [("www."%string, ["8.8.8.8"; "8.8.8.8"]%string)]).
Proof.
  assert (Hdefault : exists r w',
             Addresses defaultTtl ParseIP website_default DEFAULT_KEY
                       "website." [] w = Return r w'
             /\ upstream_calls w'
                = upstream_calls w
                  ++ [("www."%string, ["8.8.8.8"; "8.8.8.8"]%string)]).
  { apply (delegation_after_cname defaultTtl ParseIP website_default
             "website." (mkRecordCname None "www.") w).
    - vm_compute. reflexivity.
    - vm_compute. discriminate.
    - vm_compute. reflexivity.
    - vm_compute. reflexivity. }
  split; [vm_compute; reflexivity|]. split; [exact Hdefault|].
  rewrite (Addresses_unknown_client defaultTtl ParseIP website_default
             "9.9.9.9" "website." [] w); [exact Hdefault | | | ].
  - vm_compute. reflexivity.
  - discriminate.
  - simpl. lia.
Qed.

(** * Loading *)




(** * The further properties at sample configurations *)

Lemma Matching_misses_witness :
  Matching 600 parseIPv4 readme_like TypeA "9.9.9.9" "foo." answering_world
  = Return ([], false) answering_world
  /\ Matching 600 parseIPv4 readme_like 15 "10.1.2.2" "mysql." answering_world
     = Return ([], false) answering_world
  /\ Matching 600 parseIPv4 readme_like TypeA "10.1.2.2" "mysql" answering_world
     = Return ([], false) answering_world
  /\ Matching 600 parseIPv4 readme_like TypeCNAME "10.1.2.2" "mysql."
              answering_world
     = Return ([], false) answering_world.
Proof.
  destruct (Matching_misses 600 parseIPv4 readme_like TypeA "9.9.9.9" "foo."
              answering_world) as (Hclient & _).
  destruct (Matching_misses 600 parseIPv4 readme_like 15%Z "10.1.2.2" "mysql."
              answering_world) as (_ & Hqtype & _).
  destruct (Matching_misses 600 parseIPv4 readme_like TypeA "10.1.2.2" "mysql"
              answering_world) as (_ & _ & Ha & _).
  destruct (Matching_misses 600 parseIPv4 readme_like TypeCNAME "10.1.2.2"
              "mysql." answering_world) as (_ & _ & _ & Hcname).
  split; [|split; [|split]].
  - apply Hclient. vm_compute. reflexivity.
  - apply Hqtype; vm_compute; discriminate.
  - apply Ha. vm_compute. reflexivity.
  - apply Hcname. vm_compute. reflexivity.
Defined.

Lemma Matching_A_records_witness :
  exists res s,
    a_entry readme_like "10.1.2.2" "mysql." = Some res
    /\ s ∈ a_Answer res
    /\ A (mkHeader "mysql." TypeA ClassINET 42) (parseIPv4 "10.1.2.3")
       = A (mkHeader "mysql." TypeA ClassINET (ttl_or_default 600 (a_Ttl res)))
           (parseIPv4 s)
    /\ (a_Ttl res = None ->
        0 <= Ttl (Header (A (mkHeader "mysql." TypeA ClassINET 42)
                            (parseIPv4 "10.1.2.3"))) < 2 ^ 32)%Z.
Proof.
  apply (Matching_A_records 600 parseIPv4 readme_like "10.1.2.2" "mysql."
           answering_world
           [A (mkHeader "mysql." TypeA ClassINET 42) (parseIPv4 "10.1.2.3")]
           true
           (mkWorld (rand_tape answering_world) 1
                    (upstream_reply answering_world) [])).
  - vm_compute. reflexivity.
  - left.
Defined.

Lemma RecurseHosts_lists_witness :
  RecurseHosts readme_like "10.1.2.2"
  = recurseHostsFor readme_like "10.1.2.2"
    ++ recurseHostsFor readme_like DEFAULT_KEY
  /\ RecurseHosts readme_like "9.9.9.9"
     = recurseHostsFor readme_like DEFAULT_KEY
  /\ RecurseHosts (ten_hops "10.1.2.2") "10.1.2.2"
     = recurseHostsFor (ten_hops "10.1.2.2") "10.1.2.2"
  /\ "8.8.4.4:53"%string ∈ RecurseHosts readme_like "10.1.2.2".
Proof.
  split; [|split; [|split]].
  - apply (RecurseHosts_lists readme_like "10.1.2.2").
  - apply (RecurseHosts_lists readme_like "9.9.9.9"). vm_compute. reflexivity.
  - apply (RecurseHosts_lists (ten_hops "10.1.2.2") "10.1.2.2").
    vm_compute. reflexivity.
  - apply (proj2 (proj2 (proj2 (RecurseHosts_lists readme_like "10.1.2.2")))).
    left. eexists. split; [vm_compute; reflexivity|]. left.
Defined.

Lemma not_found_is_nil_witness :
  Addresses 600 parseIPv4 readme_like "10.1.2.2" "nowhere" [] answering_world
  = Return ([], false) answering_world
  /\ ([] : list RR) = [].
Proof.
  assert (H : Addresses 600 parseIPv4 readme_like "10.1.2.2" "nowhere" []
                        answering_world
              = Return ([], false) answering_world).
  { vm_compute. reflexivity. }
  split; [exact H|].
  exact (not_found_is_nil 600 parseIPv4 readme_like "10.1.2.2" "nowhere" []
           answering_world [] answering_world H).
Defined.

Lemma answer_starts_at_query_name_witness :
  (true = true <->
   [A (mkHeader "foo." TypeA ClassINET 600) (parseIPv4 "1.2.3.4")] <> [])
  /\ forall first,
       head [A (mkHeader "foo." TypeA ClassINET 600) (parseIPv4 "1.2.3.4")]
       = Some first ->
       Name (Header first) = Fqdn "foo".
Proof.
  apply (answer_starts_at_query_name 600 parseIPv4 readme_like "9.9.9.9"
           "foo" answering_world
           [A (mkHeader "foo." TypeA ClassINET 600) (parseIPv4 "1.2.3.4")]
           true
           (mkWorld (rand_tape answering_world) 2
                    (upstream_reply answering_world) [])).
  vm_compute. reflexivity.
Defined.

Lemma delegations_carry_default_list_witness :
  exists new,
    [("www."%string, ["8.8.8.8"; "8.8.8.8"]%string)]
    = upstream_calls answering_world ++ new
    /\ Forall (fun d => IsFqdn d.1 = true
                        /\ d.2 = recurseHostsFor website_default DEFAULT_KEY
                                 ++ recurseHostsFor website_default DEFAULT_KEY)
              new.
Proof.
  apply (delegations_carry_default_list 600 parseIPv4 website_default
           "9.9.9.9" "website" [] answering_world
           (CNAME (mkHeader "website." TypeCNAME ClassINET 600) "www."
              :: upstream_answer "www.", true)
           (mkWorld (rand_tape answering_world) 0
                    (upstream_reply answering_world)
                    [("www."%string, ["8.8.8.8"; "8.8.8.8"]%string)])).
  vm_compute. reflexivity.
Defined.

Lemma cname_chain_in_traversal_order_witness :
  exists addrs w',
    Addresses 600 parseIPv4 (nine_hops "10.1.2.2") "10.1.2.2" "h0." []
              quiet_world
    = Return (chain_records 600 (nine_hops "10.1.2.2") "10.1.2.2"
                            (take 10 hosts11) ++ addrs, true) w'
    /\ length (chain_records 600 (nine_hops "10.1.2.2") "10.1.2.2"
                             (take 10 hosts11)) = 9
    /\ addrs ≡ₚ a_records 600 parseIPv4 "h9."
                  (mkRecordA None ["10.0.0.9"; "10.0.0.10"]%string)
    /\ draws 4 quiet_world w'.
Proof.
  apply (cname_chain_in_traversal_order 600 parseIPv4 (nine_hops "10.1.2.2")
           9 "10.1.2.2" "h0." (tail (take 10 hosts11)) "h9."
           (mkRecordA None ["10.0.0.9"; "10.0.0.10"]%string) quiet_world).
  - lia.
  - vm_compute. reflexivity.
  - reflexivity.
  - vm_compute. reflexivity.
Defined.

Lemma shuffle_reaches_every_order_witness :
  exists tape, forall w,
    rand_tape w = tape -> rand_pos w = 0 ->
    exists w',
      shuffle [A (mkHeader "web." TypeA ClassINET 600) (parseIPv4 "10.1.2.4");
               A (mkHeader "web." TypeA ClassINET 600) (parseIPv4 "10.1.2.5");
               A (mkHeader "web." TypeA ClassINET 600) (parseIPv4 "10.1.2.6")]
              w
      = Return
          [A (mkHeader "web." TypeA ClassINET 600) (parseIPv4 "10.1.2.6");
           A (mkHeader "web." TypeA ClassINET 600) (parseIPv4 "10.1.2.4");
           A (mkHeader "web." TypeA ClassINET 600) (parseIPv4 "10.1.2.5")]
          w'
      /\ draws 3 w w'.
Proof.
  apply (shuffle_reaches_every_order
           [A (mkHeader "web." TypeA ClassINET 600) (parseIPv4 "10.1.2.4");
            A (mkHeader "web." TypeA ClassINET 600) (parseIPv4 "10.1.2.5");
            A (mkHeader "web." TypeA ClassINET 600) (parseIPv4 "10.1.2.6")]).
  apply (Permutation_cons_append [_; _]).
Defined.

Lemma shuffle_short_list_witness :
  exists w',
    shuffle [CNAME (mkHeader "www." TypeCNAME ClassINET 42) "web."] quiet_world
    = Return [CNAME (mkHeader "www." TypeCNAME ClassINET 42) "web."] w'
    /\ draws 1 quiet_world w'.
Proof.
  apply (shuffle_short_list
           [CNAME (mkHeader "www." TypeCNAME ClassINET 42) "web."] quiet_world).
  simpl. lia.
Defined.

Lemma delegations_are_bounded_witness :
  length (map (fun n : string => (n, @nil string))
              (reverse (take 9 (tail hosts11))))
  <= length (upstream_calls quiet_world) + delegation_bound DEFAULT_KEY []
  /\ delegation_bound DEFAULT_KEY [] <= 9
  /\ delegation_bound DEFAULT_KEY [] <= 90.
Proof.
  apply (delegations_are_bounded 600 parseIPv4 (ten_hops "default")
           DEFAULT_KEY "h0." [] quiet_world ([], false)
           (mkWorld (rand_tape quiet_world) 0 (upstream_reply quiet_world)
                    (map (fun n : string => (n, @nil string))
                         (reverse (take 9 (tail hosts11)))))).
  vm_compute. reflexivity.
Defined.

Lemma no_default_cname_no_delegation_witness :
  upstream_calls answering_world = upstream_calls answering_world.
Proof.
  apply (no_default_cname_no_delegation 600 parseIPv4 (ten_hops "10.1.2.2")
           "10.1.2.2" "h0." [] answering_world ([], false) answering_world).
  - intros name. apply cname_entry_unknown. vm_compute. reflexivity.
  - left. discriminate.
  - vm_compute. reflexivity.
Defined.
